(** * Radio TX Studio backend: the playback session of [server/server.js]

    The server keeps one global [STATE] record, one global publisher socket
    [zmqSock] and one global interval handle [playTimer].  Its handlers run
    on the Node event loop: a handler runs without interruption up to its
    next [await]; what stands after the [await] runs later, as a separate
    turn of the loop.  The embedding follows that reading: a [Machine]
    holds the globals, the objects the handlers allocate (publisher
    sockets, interval timers with the variables their callback captures)
    and the suspended continuations; [step] runs one turn of the loop.

    Around that core stand the upload route with its file-name filter, the
    file list, the WebSocket observers that [broadcast] reaches (a
    [Server] is a [Machine] with its observers, [sstep] one of its
    turns), and the stand-alone sender script with its sequential loop. *)

From Stdlib Require Import ZArith Lia Ascii DecimalString DecimalN.
From Equations Require Import Equations.
From stdpp Require Import gmap strings list sorting.

Local Open Scope string_scope.
Local Open Scope nat_scope.
Local Open Scope list_scope.
Local Open Scope stdpp_scope.
Set Warnings "-register-all".

(** ** Data *)

(** An element of a [Float32Array], as its IEEE-754 bit pattern.  The
    server never inspects a sample; it only slices and forwards them. *)
Definition float32 := Z.

(** [Float32Array.BYTES_PER_ELEMENT]. *)
Definition BYTES_PER_ELEMENT : nat := 4.

(** [const chunkSize = 1024]. *)
Definition chunkSize : nat := 1024.

(** The JSON values the handlers build for responses and broadcasts. *)
Inductive json :=
| JNull
| JBool (b : bool)
| JNum (n : nat)
| JStr (s : string)
| JObj (fields : list (string * json)).

(** Reading a key of a JSON object, as a client does: [undefined] is
    [None]. *)
Fixpoint assoc (k : string) (fields : list (string * json)) : option json :=
  match fields with
  | [] => None
  | (k', v) :: rest => if String.eqb k k' then Some v else assoc k rest
  end.

Definition field (k : string) (j : json) : option json :=
  match j with
  | JObj fields => assoc k fields
  | _ => None
  end.

Definition keys (j : json) : list string :=
  match j with
  | JObj fields => fst <$> fields
  | _ => []
  end.

(** [const STATE = { playing: false, currentFile: null, bytesSent: 0 }].
    [bytesSent] is a JS number that only ever holds a sum of buffer
    lengths, far below 2^53, hence an exact natural number. *)
Record State := {
  playing : bool;
  currentFile : option string;
  bytesSent : nat
}.

(** A normalised absolute path of the host (POSIX): the names from the
    root down. *)
Abbreviation path := (list string).

(** What [fs.existsSync] / [fs.readFileSync] / [wavDecoder.decode] find
    at a path: a directory, a file that cannot be read, or bytes that
    decode to the first channel [channelData[0]] or make the decoder
    reject. *)
Inductive file :=
| Directory
| Unreadable
| Readable (decoded : option (list float32)).

(** The host as the process reads it: [__dirname], the directory that
    holds server.js, and what the file system has at each path. *)
Record Disk := {
  dirname : path;
  entries : gmap path file
}.

(** [const UPLOAD_DIR = path.join(__dirname, 'uploads')]. *)
Definition UPLOAD_DIR (d : Disk) : path := dirname d ++ ["uploads"].

(** A [zmq.Publisher] object: the frames handed to [send], oldest first,
    and the number of [close()] calls it received. *)
Record Publisher := {
  sent : list (list float32);
  closes : nat
}.

(** An interval created by [setInterval], with the two variables its
    callback captures ([samples], and [index] declared by [let index = 0]),
    and whether [clearInterval] was called on its handle. *)
Record Interval := {
  samples : list float32;
  index : nat;
  cleared : bool
}.

(** A [/api/play] handler suspended at one of its two [await]s. *)
Inductive PlayTask :=
| AwaitDecode (fileId : string) (decoded : option (list float32))
| AwaitConnect (fileId : string) (smp : list float32)
| Returned.

(** An interval callback suspended at [await zmqSock.send(buf)]: the
    interval it belongs to and [buf.length]. *)
Record SendTask := {
  owner : nat;
  buf_length : nat;
  settled : bool
}.

(** The process: the three globals of the source, the host's file system,
    and the heap of sockets, intervals and suspended continuations.
    Sockets, intervals and continuations are named by their position. *)
Record Machine := {
  STATE : State;
  zmqSock : option nat;
  playTimer : option nat;
  disk : Disk;
  socks : list Publisher;
  intervals : list Interval;
  plays : list PlayTask;
  sends : list SendTask
}.

(** What a turn of the loop lets out: a [broadcast(msg)] to the observers,
    the HTTP answer [res.status(code).json(body)], or the end of the
    process with an exit code. *)
Inductive effect :=
| Broadcast (msg : json)
| Respond (code : nat) (body : json)
| Exit (code : nat).

(** What the event loop can run next. *)
Inductive Event :=
| ReqPlay (fileId : option string)     (* POST /api/play, up to the first await *)
| DecodeDone (p : nat)                 (* wavDecoder.decode settled for handler p *)
| ConnectDone (p : nat) (ok : bool)    (* zmqSock.connect settled for handler p *)
| Tick (t : nat)                       (* interval t fires *)
| SendDone (k : nat)                   (* zmqSock.send fulfilled for callback k *)
| ReqPause                             (* POST /api/pause *)
| ReqStatus.                           (* GET /api/stream-status *)

(** ** Field updates *)

Definition with_STATE (s : State) (m : Machine) : Machine :=
  {| STATE := s; zmqSock := zmqSock m; playTimer := playTimer m;
     disk := disk m; socks := socks m; intervals := intervals m;
     plays := plays m; sends := sends m |}.

Definition with_zmqSock (z : option nat) (m : Machine) : Machine :=
  {| STATE := STATE m; zmqSock := z; playTimer := playTimer m;
     disk := disk m; socks := socks m; intervals := intervals m;
     plays := plays m; sends := sends m |}.

Definition with_playTimer (t : option nat) (m : Machine) : Machine :=
  {| STATE := STATE m; zmqSock := zmqSock m; playTimer := t;
     disk := disk m; socks := socks m; intervals := intervals m;
     plays := plays m; sends := sends m |}.

Definition with_socks (l : list Publisher) (m : Machine) : Machine :=
  {| STATE := STATE m; zmqSock := zmqSock m; playTimer := playTimer m;
     disk := disk m; socks := l; intervals := intervals m;
     plays := plays m; sends := sends m |}.

Definition with_intervals (l : list Interval) (m : Machine) : Machine :=
  {| STATE := STATE m; zmqSock := zmqSock m; playTimer := playTimer m;
     disk := disk m; socks := socks m; intervals := l;
     plays := plays m; sends := sends m |}.

Definition with_plays (l : list PlayTask) (m : Machine) : Machine :=
  {| STATE := STATE m; zmqSock := zmqSock m; playTimer := playTimer m;
     disk := disk m; socks := socks m; intervals := intervals m;
     plays := l; sends := sends m |}.

Definition with_sends (l : list SendTask) (m : Machine) : Machine :=
  {| STATE := STATE m; zmqSock := zmqSock m; playTimer := playTimer m;
     disk := disk m; socks := socks m; intervals := intervals m;
     plays := plays m; sends := l |}.

Definition with_playing (b : bool) (s : State) : State :=
  {| playing := b; currentFile := currentFile s; bytesSent := bytesSent s |}.

Definition with_bytesSent (n : nat) (s : State) : State :=
  {| playing := playing s; currentFile := currentFile s; bytesSent := n |}.

(** ** The library calls the handlers make *)

(** [samples.subarray(begin, end)] for non-negative arguments: both ends
    are clamped to the length, and an empty view results when they
    cross. *)
Definition subarray (b e : nat) (xs : list float32) : list float32 :=
  let b' := b `min` length xs in
  let e' := e `min` length xs in
  take (e' - b') (drop b' xs).

(** The pieces of a string between its slashes. *)
Fixpoint segments (s : string) : list string :=
  match s with
  | EmptyString => [EmptyString]
  | String c rest =>
      if Ascii.eqb c "/" then EmptyString :: segments rest
      else match segments rest with
           | seg :: more => String c seg :: more
           | [] => [String c EmptyString]
           end
  end.

(** One segment in the normalisation of an absolute path, [up] being the
    names walked so far, innermost first: an empty segment and [.] stay,
    [..] goes up one directory (and stays at the root), a name goes
    down. *)
Definition walk (up : list string) (seg : string) : list string :=
  if String.eqb seg "" || String.eqb seg "." then up
  else if String.eqb seg ".." then tail up
  else seg :: up.

(** The string ends in a slash. *)
Fixpoint trailing_slash (s : string) : bool :=
  match s with
  | EmptyString => false
  | String c EmptyString => Ascii.eqb c "/"
  | String _ rest => trailing_slash rest
  end.

(** [path.join(dir, name)] for a normalised absolute [dir] and a non-empty
    [name]: the two are joined by a slash and the result is normalised.
    The normal form keeps a trailing slash; it is returned apart. *)
Definition path_join (dir : path) (name : string) : path * bool :=
  (reverse (foldl walk (reverse dir) (segments name)), trailing_slash name).

(** What [fs] finds at a path: nothing, or an entry.  A path written with
    a trailing slash finds directories only. *)
Definition stat (d : Disk) (p : path * bool) : option file :=
  match entries d !! p.1 with
  | Some Directory => Some Directory
  | Some f => if p.2 then None else Some f
  | None => None
  end.

(** [if (!fs.existsSync(dir)) fs.mkdirSync(dir, { recursive: true })].
    (The directories above [UPLOAD_DIR] exist: server.js is in one.) *)
Definition ensure_dir (dir : path) (d : Disk) : Disk :=
  match entries d !! dir with
  | Some _ => d
  | None => {| dirname := dirname d; entries := <[dir := Directory]> (entries d) |}
  end.

(** [clearInterval(t)]. *)
Definition clearInterval (t : nat) (m : Machine) : Machine :=
  with_intervals
    (alter (λ iv, {| samples := samples iv; index := index iv; cleared := true |})
           t (intervals m)) m.

(** [s.close()]. *)
Definition close (s : nat) (m : Machine) : Machine :=
  with_socks
    (alter (λ p, {| sent := sent p; closes := S (closes p) |}) s (socks m)) m.

(** [s.send(buf)], the part that happens at the call. *)
Definition send (s : nat) (frame : list float32) (m : Machine) : Machine :=
  with_socks
    (alter (λ p, {| sent := sent p ++ [frame]; closes := closes p |}) s (socks m)) m.

(** ** The source, function by function *)

(** [[
function cleanupStream(resetBytes = false) {
  if (playTimer) { clearInterval(playTimer); playTimer = null; }
  if (zmqSock) { try { zmqSock.close(); } catch {} zmqSock = null; }
  if (resetBytes) STATE.bytesSent = 0;
}
]] *)
Definition cleanupStream (resetBytes : bool) (m : Machine) : Machine :=
  let m1 := match playTimer m with
            | Some t => with_playTimer None (clearInterval t m)
            | None => m
            end in
  let m2 := match zmqSock m1 with
            | Some s => with_zmqSock None (close s m1)
            | None => m1
            end in
  if resetBytes then with_STATE (with_bytesSent 0 (STATE m2)) m2 else m2.

Definition json_of_file (f : option string) : json :=
  match f with
  | Some name => JStr name
  | None => JNull
  end.

(** [{ type: 'status', playing: true, currentFile: STATE.currentFile }] *)
Definition status_started (s : State) : json :=
  JObj [("type", JStr "status"); ("playing", JBool true);
        ("currentFile", json_of_file (currentFile s))].

(** [{ type: 'status', playing: false }] *)
Definition status_stopped : json :=
  JObj [("type", JStr "status"); ("playing", JBool false)].

Definition error_body (msg : string) : json := JObj [("error", JStr msg)].

Definition ok_body : json := JObj [("ok", JBool true)].

(** [!fileId] for a [fileId] that is absent or a string. *)
Definition falsy (fileId : option string) : bool :=
  match fileId with
  | None => true
  | Some f => String.eqb f ""
  end.

(** What [fs] finds at [const filePath = path.join(UPLOAD_DIR, fileId)]:
    [None] when [fs.existsSync(filePath)] is false. *)
Definition resolve (d : Disk) (fileId : string) : option file :=
  stat d (path_join (UPLOAD_DIR d) fileId).

Definition found (m : Machine) (fileId : string) : option file :=
  resolve (disk m) fileId.

(** [/api/play], from the request to [await wavDecoder.decode(buffer)].
    The two early returns leave everything alone; past them
    [cleanupStream(true)] has run, whatever comes next.  A throwing
    [readFileSync] (a directory, a file that cannot be read) lands in the
    [catch]. *)
Definition play_request (fileId : option string) (m : Machine)
  : Machine * list effect :=
  match fileId with
  | None => (m, [Respond 400 (error_body "fileId required")])
  | Some f =>
      if falsy fileId then (m, [Respond 400 (error_body "fileId required")])
      else match found m f with
           | None => (m, [Respond 404 (error_body "file not found")])
           | Some fl =>
               let m1 := cleanupStream true m in
               match fl with
               | Readable d => (with_plays (plays m1 ++ [AwaitDecode f d]) m1, [])
               | _ => (m1, [Respond 500 (error_body "failed to play")])
               end
           end
  end.

(** [/api/play], from the settled decode to [await zmqSock.connect(...)]:
    a rejected decode lands in the [catch]; otherwise a new publisher is
    stored in the global [zmqSock]. *)
Definition play_decoded (p : nat) (m : Machine) : option (Machine * list effect) :=
  match plays m !! p with
  | Some (AwaitDecode f d) =>
      match d with
      | None => Some (with_plays (<[p := Returned]> (plays m)) m,
                      [Respond 500 (error_body "failed to play")])
      | Some smp =>
          let s := length (socks m) in
          let m1 := with_socks (socks m ++ [{| sent := []; closes := 0 |}]) m in
          let m2 := with_zmqSock (Some s) m1 in
          Some (with_plays (<[p := AwaitConnect f smp]> (plays m2)) m2, [])
      end
  | _ => None
  end.

(** [/api/play], from the settled connect to the end of the handler. *)
Definition play_connected (p : nat) (ok : bool) (m : Machine)
  : option (Machine * list effect) :=
  match plays m !! p with
  | Some (AwaitConnect f smp) =>
      let m0 := with_plays (<[p := Returned]> (plays m)) m in
      if ok then
        let st := {| playing := true; currentFile := Some f; bytesSent := 0 |} in
        let m1 := with_STATE st m0 in
        let t := length (intervals m1) in
        let m2 := with_intervals
                    (intervals m1 ++ [{| samples := smp; index := 0; cleared := false |}])
                    m1 in
        Some (with_playTimer (Some t) m2,
              [Broadcast (status_started st); Respond 200 ok_body])
      else Some (m0, [Respond 500 (error_body "failed to play")])
  | _ => None
  end.

(** The interval callback, up to [await zmqSock.send(buf)].  With the
    global [zmqSock] at [null] the call throws a [TypeError] inside the
    async callback; nothing handles the rejected promise, and Node (15 and
    later, by default) ends the process on it with exit code 1. *)
Definition tick (t : nat) (m : Machine) : option (Machine * list effect) :=
  match intervals m !! t with
  | Some iv =>
      if cleared iv then None
      else if negb (playing (STATE m)) || (length (samples iv) <=? index iv)
      then Some (cleanupStream false m, [Broadcast status_stopped])
      else
        let slice := subarray (index iv) (index iv + chunkSize) (samples iv) in
        let buf := BYTES_PER_ELEMENT * length slice in
        match zmqSock m with
        | None => Some (m, [Exit 1])
        | Some s =>
            let m1 := send s slice m in
            Some (with_sends
                    (sends m1 ++ [{| owner := t; buf_length := buf; settled := false |}])
                    m1, [])
        end
  | None => None
  end.

(** The interval callback after the [await]:
    [STATE.bytesSent += buf.length; index += chunkSize;]
    A send that rejects never resumes the callback; the model leaves it
    pending. *)
Definition send_done (k : nat) (m : Machine) : option (Machine * list effect) :=
  match sends m !! k with
  | Some tk =>
      if settled tk then None
      else
        let m1 := with_sends
                    (<[k := {| owner := owner tk; buf_length := buf_length tk;
                               settled := true |}]> (sends m)) m in
        let m2 := with_STATE
                    (with_bytesSent (bytesSent (STATE m1) + buf_length tk) (STATE m1))
                    m1 in
        Some (with_intervals
                (alter (λ iv, {| samples := samples iv;
                                 index := index iv + chunkSize;
                                 cleared := cleared iv |})
                       (owner tk) (intervals m2)) m2, [])
  | None => None
  end.

(** [/api/pause]. *)
Definition pause (m : Machine) : Machine * list effect :=
  let m1 := cleanupStream false m in
  (with_STATE (with_playing false (STATE m1)) m1,
   [Broadcast status_stopped; Respond 200 ok_body]).

(** [/api/stream-status]. *)
Definition stream_status (m : Machine) : Machine * list effect :=
  (m, [Respond 200 (JObj [("playing", JBool (playing (STATE m)));
                          ("currentFileId", json_of_file (currentFile (STATE m)));
                          ("bytesSent", JNum (bytesSent (STATE m)))])]).

(** One turn of the event loop of the running process.  [None]: the loop
    cannot run that event in that state (a cleared interval does not fire,
    a continuation resumes once). *)
Definition step (m : Machine) (e : Event) : option (Machine * list effect) :=
  match e with
  | ReqPlay fileId => Some (play_request fileId m)
  | DecodeDone p => play_decoded p m
  | ConnectDone p ok => play_connected p ok m
  | Tick t => tick t m
  | SendDone k => send_done k m
  | ReqPause => Some (pause m)
  | ReqStatus => Some (stream_status m)
  end.

(** The turn ended the process. *)
Definition exits (out : list effect) : bool :=
  existsb (λ e, match e with Exit _ => true | _ => false end) out.

(** A schedule of turns, with everything it lets out, in order.  No turn
    follows the one that ended the process. *)
Fixpoint run (m : Machine) (es : list Event) : option (Machine * list effect) :=
  match es with
  | [] => Some (m, [])
  | e :: rest =>
      match step m e with
      | Some (m1, out1) =>
          if exits out1 && negb (bool_decide (rest = [])) then None
          else match run m1 rest with
               | Some (m2, out2) => Some (m2, out1 ++ out2)
               | None => None
               end
      | None => None
      end
  end.

(** The process right after start-up on a given host: the upload
    directory exists. *)
Definition boot (d : Disk) : Machine :=
  {| STATE := {| playing := false; currentFile := None; bytesSent := 0 |};
     zmqSock := None; playTimer := None; disk := ensure_dir (UPLOAD_DIR d) d;
     socks := []; intervals := []; plays := []; sends := [] |}.

(** An interval that still fires. *)
Definition is_live (m : Machine) (t : nat) : Prop :=
  ∃ iv, intervals m !! t = Some iv ∧ cleared iv = false.

(** A [/api/play] handler is suspended at an [await]. *)
Definition is_pending (k : PlayTask) : bool :=
  match k with
  | Returned => false
  | _ => true
  end.

(** No [/api/play] handler is suspended. *)
Definition idle (m : Machine) : bool := forallb (λ k, negb (is_pending k)) (plays m).

(** No callback of interval [t] is suspended at its [send]. *)
Definition no_send_pending (t : nat) (m : Machine) : bool :=
  forallb (λ tk, settled tk || negb (owner tk =? t)) (sends m).

(** A schedule along which every event passes a check [ok] in the state it
    fires in. *)
Fixpoint sched (ok : Machine → Event → bool) (m : Machine) (es : list Event) : bool :=
  match es with
  | [] => true
  | e :: rest =>
      ok m e && match step m e with
                | Some (m1, _) => sched ok m1 rest
                | None => true
                end
  end.

(** Start handlers do not overlap: a [/api/play] request is taken up only
    when no earlier [/api/play] handler is still suspended. *)
Definition serial_starts (m : Machine) (e : Event) : bool :=
  match e with
  | ReqPlay _ => idle m
  | _ => true
  end.

(** Sends keep up with the timer: an interval fires only when its previous
    callback is past its [await]. *)
Definition serial_sends (m : Machine) (e : Event) : bool :=
  match e with
  | Tick t => no_send_pending t m
  | _ => true
  end.

(** The broadcasts among what a schedule lets out. *)
Definition broadcasts (out : list effect) : list json :=
  omap (λ e, match e with Broadcast msg => Some msg | _ => None end) out.

(** The [k]-th frame of a sample sequence cut in chunks. *)
Definition chunk (smp : list float32) (k : nat) : list float32 :=
  take chunkSize (drop (chunkSize * k) smp).

(** [ceil(L / chunkSize)]. *)
Definition frame_count (L : nat) : nat := (L + (chunkSize - 1)) `div` chunkSize.

(** One frame time when the send keeps up: interval [t] fires, and the
    send it issued is fulfilled before anything else happens. *)
Definition frame_turn (t : nat) (m : Machine) : list Event :=
  [Tick t; SendDone (length (sends m))].

(** [n] such frame times in a row, the first callback being continuation
    number [k0]. *)
Definition frame_turns (t k0 n : nat) : list Event :=
  flat_map (λ i, [Tick t; SendDone (k0 + i)]) (seq 0 n).

(** ** Concrete processes used in the examples *)

Definition start (f : string) (p : nat) : list Event :=
  [ReqPlay (Some f); DecodeDone p; ConnectDone p true].


(** A host with server.js in [/srv/app] and the given files in its
    upload directory. *)
Definition host (uploads : list (string * file)) : Disk :=
  {| dirname := ["srv"; "app"];
     entries := list_to_map
                  ([(["srv"], Directory); (["srv"; "app"], Directory);
                    (["srv"; "app"; "server.js"], Readable None);
                    (["srv"; "app"; "uploads"], Directory)]
                   ++ ((λ nf, (["srv"; "app"; "uploads"; nf.1], nf.2)) <$> uploads)) |}.

Definition demo_disk : Disk :=
  host [("a.wav", Readable (Some [1; 2; 3]%Z)); ("b.wav", Readable (Some [7]%Z));
        ("noise.bin", Readable None); ("locked.wav", Unreadable);
        ("dir", Directory)].


(** The machine a schedule ends in; the starting machine if the schedule
    cannot run. *)
Definition after (m : Machine) (es : list Event) : Machine :=
  match run m es with
  | Some (m', _) => m'
  | None => m
  end.

(** ** What the claims speak of *)

(** A file id that is a plain name: not empty, not [.] or [..], and
    without a slash. *)
Definition plain (f : string) : bool :=
  negb (String.eqb f "") && negb (String.eqb f ".") && negb (String.eqb f "..") &&
  forallb (λ c, negb (Ascii.eqb c "/")) (String.list_ascii_of_string f).

(** The session a continuation or a tick belongs to is the interval that
    scheduled it; it is superseded once the global [playTimer] no longer
    holds that interval. *)
Definition work_of (m : Machine) (e : Event) : option nat :=
  match e with
  | Tick t => Some t
  | SendDone k => owner <$> sends m !! k
  | _ => None
  end.

(** C2 as stated: work of a superseded session changes neither [STATE],
    nor a cursor, nor what a channel was handed. *)
Definition stale_work_is_noop : Prop :=
  ∀ d es e t m out m' out',
    run (boot d) es = Some (m, out) →
    work_of m e = Some t →
    playTimer m ≠ Some t →
    step m e = Some (m', out') →
    STATE m' = STATE m ∧
    index <$> intervals m' = index <$> intervals m ∧
    sent <$> socks m' = sent <$> socks m.

(** Session [t], publishing on socket [s], is the installed one and is
    playing, has handed its socket the first [k] frames of [smp] and
    nothing else, and has counted them all in [bytesSent]. *)
Definition looping (t s : nat) (smp : list float32) (k : nat) (m : Machine) : Prop :=
  intervals m !! t = Some {| samples := smp; index := chunkSize * k; cleared := false |} ∧
  playTimer m = Some t ∧
  playing (STATE m) = true ∧
  zmqSock m = Some s ∧
  socks m !! s = Some {| sent := chunk smp <$> seq 0 k; closes := 0 |} ∧
  bytesSent (STATE m) = BYTES_PER_ELEMENT * length (concat (chunk smp <$> seq 0 k)).


(** What a failed start leaves of a session that was playing on socket
    [sA] when the start was taken up. *)
Definition torn_down (m : Machine) (sA : nat) (pA : Publisher) (m' : Machine) : Prop :=
  playTimer m' = None ∧
  (∀ t, ¬ is_live m' t) ∧
  socks m' !! sA = Some {| sent := sent pA; closes := S (closes pA) |} ∧
  bytesSent (STATE m') = 0 ∧
  playing (STATE m') = playing (STATE m) ∧
  currentFile (STATE m') = currentFile (STATE m) ∧
  ∃ body, step m' ReqStatus = Some (m', [Respond 200 body]) ∧
          field "playing" body = Some (JBool (playing (STATE m))).

(** What the cursor claims look at: for every interval, its samples and
    its cursor. *)
Definition cursors (m : Machine) : list (list float32 * nat) :=
  (λ iv, (samples iv, index iv)) <$> intervals m.

Definition settle (tk : SendTask) : SendTask :=
  {| owner := owner tk; buf_length := buf_length tk; settled := true |}.

Definition bump (c : list float32 * nat) : list float32 * nat := (c.1, c.2 + chunkSize).

(** The four ways a turn of the loop touches cursors and suspended sends:
    not at all; a new interval at cursor 0; a tick that hands over a frame
    and suspends; a fulfilled send that moves its interval's cursor by a
    chunk. *)
Inductive advance (m : Machine) : Event → Machine → Prop :=
| advance_none e m' :
    cursors m' = cursors m → sends m' = sends m → advance m e m'
| advance_new e m' smp :
    cursors m' = cursors m ++ [(smp, 0)] → sends m' = sends m → advance m e m'
| advance_send t m' smp i n :
    cursors m !! t = Some (smp, i) → i < length smp →
    cursors m' = cursors m →
    sends m' = sends m ++ [{| owner := t; buf_length := n; settled := false |}] →
    advance m (Tick t) m'
| advance_done k m' tk :
    sends m !! k = Some tk → settled tk = false →
    sends m' = <[k := settle tk]> (sends m) →
    cursors m' = alter bump (owner tk) (cursors m) →
    advance m (SendDone k) m'.

(** A callback of interval [t] is suspended at its send. *)
Definition send_pending (m : Machine) (t : nat) : Prop :=
  ∃ k tk, sends m !! k = Some tk ∧ settled tk = false ∧ owner tk = t.

(** What sends that keep up maintain: every suspended send belongs to an
    existing interval, an interval has at most one of them, its cursor is
    short of the end while it has one, and less than a chunk past the end
    otherwise. *)
Definition cursor_inv (m : Machine) : Prop :=
  (∀ k tk, sends m !! k = Some tk → owner tk < length (cursors m)) ∧
  (∀ k k' tk tk', sends m !! k = Some tk → sends m !! k' = Some tk' →
                  settled tk = false → settled tk' = false →
                  owner tk = owner tk' → k = k') ∧
  (∀ t smp i, cursors m !! t = Some (smp, i) →
              i < length smp + chunkSize ∧ (send_pending m t → i < length smp)).


(** ** Further predicates on the process *)

(** No successful connect resumes in a schedule: no start is accepted. *)
Definition accepts (e : Event) : bool :=
  match e with
  | ConnectDone _ true => true
  | _ => false
  end.

(** What every schedule maintains about sockets: none was closed twice,
    and the one the global [zmqSock] holds exists and was never closed. *)
Definition socket_inv (m : Machine) : Prop :=
  (∀ s p, socks m !! s = Some p → closes p ≤ 1) ∧
  (∀ s, zmqSock m = Some s → ∃ p, socks m !! s = Some p ∧ closes p = 0).

(** What every schedule maintains about frames: every cursor is a whole
    number of chunks, and every frame a socket was handed is a non-empty
    chunk of the samples of some interval. *)
Definition frame_inv (m : Machine) : Prop :=
  (∀ t smp i, cursors m !! t = Some (smp, i) → ∃ k, i = chunkSize * k) ∧
  (∀ s p fr, socks m !! s = Some p → fr ∈ sent p →
     ∃ t smp i k, cursors m !! t = Some (smp, i) ∧ fr = chunk smp k ∧
                  chunkSize * k < length smp).



(** [new zmq.Publisher()]. *)
Definition fresh_socket : Publisher := {| sent := []; closes := 0 |}.

(** The four ways a turn of the loop touches the sockets: not at all; the
    [zmqSock] part of [cleanupStream]; a new publisher stored in
    [zmqSock]; a tick of a playing session that hands the socket in
    [zmqSock] the frame at its cursor. *)
Inductive socket_move (m : Machine) : Event → Machine → Prop :=
| socket_move_none e m' :
    socks m' = socks m → zmqSock m' = zmqSock m → socket_move m e m'
| socket_move_cleanup e m' :
    socks m' = socks (cleanupStream false m) → zmqSock m' = None →
    socket_move m e m'
| socket_move_open e m' :
    socks m' = socks m ++ [fresh_socket] → zmqSock m' = Some (length (socks m)) →
    socket_move m e m'
| socket_move_send t m' iv s :
    intervals m !! t = Some iv → cleared iv = false →
    playing (STATE m) = true → index iv < length (samples iv) →
    zmqSock m = Some s → zmqSock m' = Some s →
    socks m' = alter (λ p, {| sent := sent p ++ [subarray (index iv) (index iv + chunkSize)
                                                          (samples iv)];
                              closes := closes p |}) s (socks m) →
    socket_move m (Tick t) m'.

(** ** The stand-alone sender script

    [[
const chunkSize = 1024;
for (let i = 0; i < samples.length; i += chunkSize) {
  const slice = samples.subarray(i, i + chunkSize);
  const buf = Buffer.from(slice.buffer, slice.byteOffset, slice.byteLength);
  await sock.send(buf);
  await new Promise(r => setTimeout(r, 10));
}
]]
    The loop is sequential: each send is awaited before the next slice is
    taken.  [send_from samples i sock] is the loop entered with cursor [i]. *)
Equations? send_from (samples : list float32) (i : nat) (sock : Publisher) : Publisher
  by wf (length samples - i) lt :=
  send_from samples i sock with decide (i < length samples) := {
    | left _ =>
        send_from samples (i + chunkSize)
          {| sent := sent sock ++ [subarray i (i + chunkSize) samples];
             closes := closes sock |};
    | right _ => sock }.
Proof. unfold chunkSize. lia. Qed.

(** The script after its decode and connect: the loop from cursor 0 on a
    new publisher. *)
Definition run_script (samples : list float32) : Publisher :=
  send_from samples 0 fresh_socket.

(** ** Uploads and the file list *)

(** The class [[a-zA-Z0-9_.-]] of the upload file-name filter. *)
Definition safe_char (c : ascii) : bool :=
  let n := nat_of_ascii c in
  ((97 <=? n) && (n <=? 122)) || ((65 <=? n) && (n <=? 90)) ||
  ((48 <=? n) && (n <=? 57)) || (n =? 95) || (n =? 46) || (n =? 45).

(** [file.originalname.replace(/[^a-zA-Z0-9_.-]/g, '_')]: every character
    outside the class becomes an underscore.  (multer hands the name over
    decoded as latin1, one character per byte.) *)
Fixpoint sanitize (s : string) : string :=
  match s with
  | EmptyString => EmptyString
  | String c rest => String (if safe_char c then c else "_"%char) (sanitize rest)
  end.

(** The characters of a string, first to last. *)
Abbreviation chars := String.list_ascii_of_string.

(** What [sanitize] does to one character. *)
Definition sanitize_char (c : ascii) : ascii := if safe_char c then c else "_"%char.

(** A non-negative integer in a template literal: its decimal digits. *)
Definition decimal (n : N) : string := NilEmpty.string_of_uint (N.to_uint n).

(** [`${Date.now()}_${safe}`], the name multer stores the upload under. *)
Definition filename (now : N) (originalname : string) : string :=
  String.append (decimal now) (String "_" (sanitize originalname)).

(** [/\.wav$/i.test(f)]: the last four characters are a dot and the
    letters w, a, v in either case. *)
Definition is_wav (f : string) : bool :=
  match reverse (chars f) with
  | v :: a :: w :: dot :: _ =>
      (Ascii.eqb dot ".") &&
      (Ascii.eqb w "w" || Ascii.eqb w "W") &&
      (Ascii.eqb a "a" || Ascii.eqb a "A") &&
      (Ascii.eqb v "v" || Ascii.eqb v "V")
  | _ => false
  end.

(** [f => ({ id: f, name: f })] *)
Definition entry (f : string) : json := JObj [("id", JStr f); ("name", JStr f)].

(** [a.id] for an entry of the list. *)
Definition id_of (j : json) : string :=
  match field "id" j with
  | Some (JStr s) => s
  | _ => ""
  end.

(** [/api/files] over what [fs.readdirSync(UPLOAD_DIR)] returned:
    [[
const files = names.filter(f => /\.wav$/i.test(f)).map(f => ({ id: f, name: f }));
files.sort((a, b) => b.id.localeCompare(a.id));
]]
    [localeCompare] is the collation of the host, taken as a parameter.
    [Array.prototype.sort] orders [a] before [b] when the comparator is
    not positive on them; merge sort stands for it. *)
Definition before (localeCompare : string → string → Z) (a b : json) : Prop :=
  (localeCompare (id_of b) (id_of a) ≤ 0)%Z.

#[global] Instance before_dec (localeCompare : string → string → Z) :
  RelDecision (before localeCompare).
Proof. intros a b. unfold before. apply _. Defined.

Definition list_files (localeCompare : string → string → Z) (names : list string)
  : list json :=
  merge_sort (before localeCompare) (entry <$> filter (λ f, is_wav f = true) names).

(** The name under which a path lies directly in a directory. *)
Definition child_of (dir : path) (p : path) : option string :=
  match drop (length dir) p with
  | [name] => if decide (take (length dir) p = dir) then Some name else None
  | _ => None
  end.

(** [fs.readdirSync(UPLOAD_DIR)]: the names in the upload directory. *)
Definition directory (m : Machine) : list string :=
  omap (child_of (UPLOAD_DIR (disk m))) (map_to_list (entries (disk m))).*1.

(** ** Observers *)

(** A WebSocket of [wss.clients]: its [readyState] (1 is OPEN) and the
    messages sent to it, oldest first. *)
Record Client := {
  readyState : nat;
  inbox : list json
}.

(** [[
function broadcast(msg) {
  const data = JSON.stringify(msg);
  wss.clients.forEach(c => { if (c.readyState === 1) c.send(data); });
}
]] *)
Definition broadcast (msg : json) (cs : list Client) : list Client :=
  (λ c, if readyState c =? 1
        then {| readyState := readyState c; inbox := inbox c ++ [msg] |}
        else c) <$> cs.

(** The process with its observers. *)
Record Server := {
  core : Machine;
  clients : list Client
}.

(** [{ type: 'welcome', version: 'zmq-integration' }] *)
Definition welcome : json :=
  JObj [("type", JStr "welcome"); ("version", JStr "zmq-integration")].

(** [{ type: 'status', playing: STATE.playing, currentFile: STATE.currentFile }] *)
Definition snapshot (s : State) : json :=
  JObj [("type", JStr "status"); ("playing", JBool (playing s));
        ("currentFile", json_of_file (currentFile s))].

(** [{ type: 'files-updated' }] *)
Definition files_updated : json := JObj [("type", JStr "files-updated")].

(** What the server can run next: a turn of the playback process, an
    upload (multer has stored the file part, if any, before the handler
    runs), a new observer, or an observer's socket changing state. *)
Inductive ServerEvent :=
| Core (e : Event)
| Upload (part : option (string * option (list float32))) (now : N)
| WsConnect
| WsReady (i : nat) (state : nat).

Definition with_disk (d : Disk) (m : Machine) : Machine :=
  {| STATE := STATE m; zmqSock := zmqSock m; playTimer := playTimer m;
     disk := d; socks := socks m; intervals := intervals m;
     plays := plays m; sends := sends m |}.

(** multer's disk storage: the file part is written to
    [path.join(destination, filename)]. *)
Definition store (name : string) (fl : file) (d : Disk) : Disk :=
  {| dirname := dirname d;
     entries := <[(path_join (UPLOAD_DIR d) name).1 := fl]> (entries d) |}.

(** [/api/upload-audio], with multer's disk storage in front of it. *)
Definition upload_audio (part : option (string * option (list float32))) (now : N)
           (sv : Server) : Server * list effect :=
  match part with
  | None => (sv, [Respond 400 (error_body "no file uploaded")])
  | Some (originalname, decoded) =>
      let stored := filename now originalname in
      ({| core := with_disk (store stored (Readable decoded) (disk (core sv))) (core sv);
          clients := broadcast files_updated (clients sv) |},
       [Broadcast files_updated;
        Respond 200 (JObj [("id", JStr stored); ("name", JStr originalname)])])
  end.

(** [wss.on('connection', ...)]: the new socket is open, and is sent the
    welcome and the current status. *)
Definition connection (sv : Server) : Server :=
  {| core := core sv;
     clients := clients sv ++ [{| readyState := 1;
                                  inbox := [welcome; snapshot (STATE (core sv))] |}] |}.

(** One turn of the server.  The broadcasts of a turn of the playback
    process reach the observers in the order they were made. *)
Definition sstep (sv : Server) (e : ServerEvent) : option (Server * list effect) :=
  match e with
  | Core e =>
      match step (core sv) e with
      | Some (m', out) =>
          Some ({| core := m';
                   clients := foldl (λ cs msg, broadcast msg cs) (clients sv)
                                    (broadcasts out) |}, out)
      | None => None
      end
  | Upload part now => Some (upload_audio part now sv)
  | WsConnect => Some (connection sv, [])
  | WsReady i state =>
      Some ({| core := core sv;
               clients := alter (λ c, {| readyState := state; inbox := inbox c |})
                                i (clients sv) |}, [])
  end.

Fixpoint srun (sv : Server) (es : list ServerEvent) : option (Server * list effect) :=
  match es with
  | [] => Some (sv, [])
  | e :: rest =>
      match sstep sv e with
      | Some (sv1, out1) =>
          if exits out1 && negb (bool_decide (rest = [])) then None
          else match srun sv1 rest with
               | Some (sv2, out2) => Some (sv2, out1 ++ out2)
               | None => None
               end
      | None => None
      end
  end.

(** The events that change the state of observer [i]'s socket. *)
Definition touches (i : nat) (e : ServerEvent) : bool :=
  match e with
  | WsReady j _ => j =? i
  | _ => false
  end.

(** What an observer holds after the messages [msgs] were broadcast. *)
Definition receive (msgs : list json) (c : Client) : Client :=
  if readyState c =? 1
  then {| readyState := readyState c; inbox := inbox c ++ msgs |}
  else c.


(** ** Basic facts *)

(** Closed facts about concrete schedules, by evaluation. *)
Ltac by_evaluation :=
  repeat match goal with |- _ ∧ _ => split end;
  vm_compute; first [reflexivity | eexists; reflexivity | discriminate].

Arguments cleanupStream : simpl never.

(** Case analysis on the two guards of [cleanupStream]. *)
Ltac cleanup_cases m :=
  unfold cleanupStream;
  destruct (playTimer m) as [?|] eqn:?; simpl;
  destruct (zmqSock m) as [?|] eqn:?; simpl.

Lemma cleanupStream_STATE m : STATE (cleanupStream false m) = STATE m.
Proof. cleanup_cases m; reflexivity. Qed.

Lemma cleanupStream_playing r m :
  playing (STATE (cleanupStream r m)) = playing (STATE m).
Proof. cleanup_cases m; destruct r; reflexivity. Qed.

Lemma cleanupStream_currentFile r m :
  currentFile (STATE (cleanupStream r m)) = currentFile (STATE m).
Proof. cleanup_cases m; destruct r; reflexivity. Qed.

Lemma cleanupStream_bytesSent m : bytesSent (STATE (cleanupStream true m)) = 0.
Proof. cleanup_cases m; reflexivity. Qed.

Lemma cleanupStream_playTimer r m : playTimer (cleanupStream r m) = None.
Proof. cleanup_cases m; destruct r; simpl; congruence. Qed.

Lemma cleanupStream_zmqSock r m : zmqSock (cleanupStream r m) = None.
Proof. cleanup_cases m; destruct r; simpl; congruence. Qed.


Lemma cleanupStream_plays r m : plays (cleanupStream r m) = plays m.
Proof. cleanup_cases m; destruct r; reflexivity. Qed.

Lemma cleanupStream_sends r m : sends (cleanupStream r m) = sends m.
Proof. cleanup_cases m; destruct r; reflexivity. Qed.

Lemma cleanupStream_intervals r m :
  intervals (cleanupStream r m) =
  match playTimer m with
  | Some t => alter (λ iv, {| samples := samples iv; index := index iv; cleared := true |})
                    t (intervals m)
  | None => intervals m
  end.
Proof. cleanup_cases m; destruct r; reflexivity. Qed.

Lemma cleanupStream_socks r m :
  socks (cleanupStream r m) =
  match zmqSock m with
  | Some s => alter (λ p, {| sent := sent p; closes := S (closes p) |}) s (socks m)
  | None => socks m
  end.
Proof. cleanup_cases m; destruct r; reflexivity. Qed.

(** Once cleaned up, cleaning up again changes nothing. *)
Lemma cleanupStream_idem m :
  playTimer m = None → zmqSock m = None → cleanupStream false m = m.
Proof. intros Ht Hs. unfold cleanupStream. rewrite Ht, Hs. reflexivity. Qed.

(** ** Paths *)

Lemma segments_plain (f : string) :
  forallb (λ c, negb (Ascii.eqb c "/")) (String.list_ascii_of_string f) = true →
  segments f = [f] ∧ trailing_slash f = false.
Proof.
  induction f as [|c f IH]; [split; reflexivity|].
  cbn [String.list_ascii_of_string forallb]. intros H.
  apply andb_prop in H as [Hc Hf]. apply negb_true_iff in Hc.
  destruct (IH Hf) as [Hs Ht]. split.
  - cbn [segments]. rewrite Hc, Hs. reflexivity.
  - cbn [trailing_slash]. destruct f; [exact Hc|exact Ht].
Qed.

(** Joined to a directory, a plain name is the entry of that name in the
    directory. *)
Lemma path_join_plain (dir : path) (f : string) :
  plain f = true → path_join dir f = (dir ++ [f], false).
Proof.
  unfold plain. intros H.
  apply andb_prop in H as [H Hs]. apply andb_prop in H as [H H2].
  apply andb_prop in H as [H0 H1].
  apply negb_true_iff in H0, H1, H2.
  destruct (segments_plain f Hs) as [Hseg Htr].
  unfold path_join. rewrite Hseg, Htr. cbn [foldl]. unfold walk.
  rewrite H0, H1, H2. cbn [orb]. rewrite reverse_cons, reverse_involutive. reflexivity.
Qed.

Lemma resolve_plain (d : Disk) (f : string) :
  plain f = true → resolve d f = entries d !! (UPLOAD_DIR d ++ [f]).
Proof.
  intros H. unfold resolve, stat. rewrite (path_join_plain _ f H).
  change ((UPLOAD_DIR d ++ [f], false).1) with (UPLOAD_DIR d ++ [f]).
  change ((UPLOAD_DIR d ++ [f], false).2) with false.
  destruct (entries d !! _) as [[| |dec]|]; reflexivity.
Qed.

Lemma child_of_spec (dir p : path) (name : string) :
  child_of dir p = Some name ↔ p = dir ++ [name].
Proof.
  unfold child_of. split.
  - destruct (drop (length dir) p) as [|n [|? ?]] eqn:E; try discriminate.
    case_decide as Ht; [|discriminate]. intros [= <-].
    rewrite <- (take_drop (length dir) p), E, Ht. reflexivity.
  - intros ->. rewrite drop_app_length, take_app_length.
    case_decide; [reflexivity|contradiction].
Qed.

Lemma directory_spec (m : Machine) (f : string) :
  f ∈ directory m ↔ is_Some (entries (disk m) !! (UPLOAD_DIR (disk m) ++ [f])).
Proof.
  unfold directory. rewrite list_elem_of_omap. split.
  - intros (p & Hin & Hp). apply child_of_spec in Hp as ->.
    apply list_elem_of_fmap in Hin as ([p fl] & -> & Hin).
    apply elem_of_map_to_list in Hin. cbn in Hin. eauto.
  - intros [fl Hfl]. exists (UPLOAD_DIR (disk m) ++ [f]).
    split; [|apply child_of_spec; reflexivity].
    apply list_elem_of_fmap. exists (UPLOAD_DIR (disk m) ++ [f], fl).
    split; [reflexivity|]. apply elem_of_map_to_list. exact Hfl.
Qed.

(** The upload directory is there once the process has started, and
    starting changes nothing else. *)
Lemma boot_disk (d : Disk) :
  dirname (disk (boot d)) = dirname d ∧
  is_Some (entries (disk (boot d)) !! UPLOAD_DIR d) ∧
  ∀ p, p ≠ UPLOAD_DIR d → entries (disk (boot d)) !! p = entries d !! p.
Proof.
  cbn [boot disk]. unfold ensure_dir.
  destruct (entries d !! UPLOAD_DIR d) as [fl|] eqn:E; cbn [dirname entries].
  - split; [reflexivity|]. split; [rewrite E; eauto|reflexivity].
  - split; [reflexivity|]. split; [rewrite lookup_insert_eq; eauto|].
    intros p Hp. apply lookup_insert_ne. congruence.
Qed.

(** ** The control surface *)

(** C7 as stated fails: a reference that names no stored source is not
    always rejected as not found.  While [a.wav] plays, a start with the
    id [.] (the upload directory itself, which exists) gets past the
    existence test, tears the playing session down and is answered 500;
    a start with [../server.js] does the same and fails at its decode. *)
Lemma unknown_reference_not_rejected :
  let m := after (boot demo_disk) (start "a.wav" 0 ++ frame_turn 0 (boot demo_disk)) in
  let m' := after m [ReqPlay (Some ".")] in
  let m1 := after m [ReqPlay (Some "../server.js")] in
  (∃ out, run (boot demo_disk) (start "a.wav" 0 ++ frame_turn 0 (boot demo_disk))
          = Some (m, out)) ∧
  ("." ∉ directory m) ∧ ("../server.js" ∉ directory m) ∧
  playing (STATE m) = true ∧ bytesSent (STATE m) = 12 ∧
  playTimer m = Some 0 ∧ zmqSock m = Some 0 ∧
  step m (ReqPlay (Some ".")) = Some (m', [Respond 500 (error_body "failed to play")]) ∧
  bytesSent (STATE m') = 0 ∧ playTimer m' = None ∧ zmqSock m' = None ∧
  cleared <$> intervals m' = [true] ∧ closes <$> socks m' = [1] ∧
  step m (ReqPlay (Some "../server.js")) = Some (m1, []) ∧
  bytesSent (STATE m1) = 0 ∧ playTimer m1 = None ∧ closes <$> socks m1 = [1] ∧
  (∃ m2, step m1 (DecodeDone 1) = Some (m2, [Respond 500 (error_body "failed to play")])).
Proof.
  intros m m' m1.
  assert (Hno : ∀ f, entries (disk m) !! (UPLOAD_DIR (disk m) ++ [f]) = None →
                     f ∉ directory m).
  { intros f Hf Hin. apply directory_spec in Hin as [fl Hfl]. congruence. }
  split; [by_evaluation|].
  split; [apply Hno; by_evaluation|]. split; [apply Hno; by_evaluation|].
  by_evaluation.
Qed.



(** C9 as stated fails: the answer of [/api/stream-status] carries the
    current file under the key [currentFileId]; a reader of the key
    [currentFile] finds nothing. *)
Lemma stream_status_has_no_currentFile_key :
  ∃ body,
    step (boot demo_disk) ReqStatus = Some (boot demo_disk, [Respond 200 body]) ∧
    keys body ≠ ["playing"; "currentFile"; "bytesSent"] ∧
    field "currentFile" body = None.
Proof.
  eexists. split; [reflexivity|]. split; [discriminate|reflexivity].
Qed.

(** C9, amended.  [/api/stream-status] answers in every state of the
    process, in its own turn (whatever sends or handlers are suspended),
    changes nothing, broadcasts nothing, and its body has exactly the keys
    [playing] (a boolean), [currentFileId] (a string or null) and
    [bytesSent] (a number), read from [STATE]. *)
Theorem stream_status_pure_read (m : Machine) :
  ∃ body,
    step m ReqStatus = Some (m, [Respond 200 body]) ∧
    keys body = ["playing"; "currentFileId"; "bytesSent"] ∧
    field "playing" body = Some (JBool (playing (STATE m))) ∧
    field "currentFileId" body
    = Some (match currentFile (STATE m) with Some f => JStr f | None => JNull end) ∧
    field "bytesSent" body = Some (JNum (bytesSent (STATE m))).
Proof.
  eexists. split; [reflexivity|]. repeat split; reflexivity.
Qed.

(** C6 as stated fails: with no session active a stop still broadcasts,
    and two stops in a row broadcast twice. *)
Lemma pause_always_broadcasts :
  step (boot demo_disk) ReqPause
  = Some (boot demo_disk, [Broadcast status_stopped; Respond 200 ok_body]) ∧
  ∃ m out, run (boot demo_disk) [ReqPause; ReqPause] = Some (m, out) ∧
           broadcasts out = [status_stopped; status_stopped].
Proof.
  split; [reflexivity|]. eexists _, _. split; reflexivity.
Qed.

(** C6, amended.  A stop always succeeds and leaves the process stopped:
    playing false, no timer, no channel.  A second stop right after it
    changes nothing in the process.  Each of the two broadcasts one
    [{type: status, playing: false}], two in total. *)
Theorem pause_idempotent_on_state (m : Machine) :
  ∃ m1,
    step m ReqPause = Some (m1, [Broadcast status_stopped; Respond 200 ok_body]) ∧
    playing (STATE m1) = false ∧ playTimer m1 = None ∧ zmqSock m1 = None ∧
    step m1 ReqPause = Some (m1, [Broadcast status_stopped; Respond 200 ok_body]) ∧
    ∃ out, run m [ReqPause; ReqPause] = Some (m1, out) ∧
           broadcasts out = [status_stopped; status_stopped].
Proof.
  set (m1 := (pause m).1).
  assert (Ht : playTimer m1 = None) by apply (cleanupStream_playTimer false m).
  assert (Hs : zmqSock m1 = None) by apply (cleanupStream_zmqSock false m).
  assert (H2 : step m1 ReqPause
               = Some (m1, [Broadcast status_stopped; Respond 200 ok_body])).
  { assert (Hp : playing (STATE m1) = false) by reflexivity.
    simpl. unfold pause. rewrite (cleanupStream_idem m1 Ht Hs).
    clearbody m1. destruct m1 as [[] ? ? ? ? ? ? ?]; simpl in *. subst. reflexivity. }
  exists m1. split; [reflexivity|]. split; [reflexivity|].
  split; [exact Ht|]. split; [exact Hs|]. split; [exact H2|].
  eexists. split.
  - change (run m [ReqPause; ReqPause])
      with (match step m1 ReqPause with
            | Some (m2, out2) =>
                match run m2 [] with
                | Some (m3, out3) =>
                    Some (m3, [Broadcast status_stopped; Respond 200 ok_body] ++ out2 ++ out3)
                | None => None
                end
            | None => None
            end).
    rewrite H2. reflexivity.
  - reflexivity.
Qed.

(** ** The interval callback *)

Lemma tick_stops (m : Machine) (t : nat) (iv : Interval) :
  intervals m !! t = Some iv →
  cleared iv = false →
  playing (STATE m) = false ∨ length (samples iv) ≤ index iv →
  step m (Tick t) = Some (cleanupStream false m, [Broadcast status_stopped]).
Proof.
  intros Hiv Hc Hg. simpl. unfold tick. rewrite Hiv, Hc.
  destruct Hg as [Hp|Hl].
  - rewrite Hp. reflexivity.
  - apply Nat.leb_le in Hl. rewrite Hl, orb_true_r. reflexivity.
Qed.

Lemma tick_cleared (m : Machine) (t : nat) :
  (∀ iv, intervals m !! t = Some iv → cleared iv = true) →
  step m (Tick t) = None.
Proof.
  intros H. simpl. unfold tick.
  destruct (intervals m !! t) as [iv|] eqn:E; [|reflexivity].
  rewrite (H iv eq_refl). reflexivity.
Qed.

Lemma cleanupStream_clears (r : bool) (m : Machine) (t : nat) (iv : Interval) :
  playTimer m = Some t →
  intervals (cleanupStream r m) !! t = Some iv →
  cleared iv = true.
Proof.
  intros Ht. rewrite cleanupStream_intervals, Ht, list_lookup_alter_eq.
  destruct (intervals m !! t); simpl; intros [= <-]. reflexivity.
Qed.

Lemma cleanupStream_index (r : bool) (m : Machine) :
  index <$> intervals (cleanupStream r m) = index <$> intervals m.
Proof.
  rewrite cleanupStream_intervals. destruct (playTimer m); [|reflexivity].
  rewrite (list_fmap_alter index _ id) by (apply Forall_forall; reflexivity).
  apply list_alter_id. reflexivity.
Qed.

Lemma cleanupStream_sent (r : bool) (m : Machine) :
  sent <$> socks (cleanupStream r m) = sent <$> socks m.
Proof.
  rewrite cleanupStream_socks. destruct (zmqSock m); [|reflexivity].
  rewrite (list_fmap_alter sent _ id) by (apply Forall_forall; reflexivity).
  apply list_alter_id. reflexivity.
Qed.

(** C2 as stated fails: a callback suspended at its send when a stop
    arrives resumes after the stop, and adds its frame to [bytesSent] and
    moves its cursor without any check. *)
Lemma pending_send_resumes_after_stop : ¬ stale_work_is_noop.
Proof.
  intros H.
  pose (es := start "a.wav" 0 ++ [Tick 0; ReqPause]).
  pose (m := after (boot demo_disk) es).
  assert (Hrun : ∃ out, run (boot demo_disk) es = Some (m, out))
    by (vm_compute; eexists; reflexivity).
  destruct Hrun as [out Hrun].
  assert (Hwork : work_of m (SendDone 0) = Some 0) by (vm_compute; reflexivity).
  assert (Hsup : playTimer m ≠ Some 0) by (vm_compute; discriminate).
  assert (Hstep : step m (SendDone 0) = Some (after m [SendDone 0], []))
    by (vm_compute; reflexivity).
  destruct (H _ _ _ _ _ _ _ _ Hrun Hwork Hsup Hstep) as [HS _].
  vm_compute in HS. discriminate HS.
Qed.

(** C2, amended.  A tick carries no session token.  Before it sends, it
    tests the global flag [STATE.playing] and its own cursor against
    [samples.length]; when the test fails it sends no frame and leaves
    [STATE], every cursor and every suspended continuation alone, but it
    runs [cleanupStream()] and broadcasts [{type: status, playing: false}].
    A stop, and a start that found its file, clear the interval the global
    [playTimer] holds, so that interval fires no further tick. *)
Theorem tick_tests_playing_and_cursor (m : Machine) (t : nat) (iv : Interval) :
  intervals m !! t = Some iv →
  cleared iv = false →
  (playing (STATE m) = false ∨ length (samples iv) ≤ index iv →
     ∃ m', step m (Tick t) = Some (m', [Broadcast status_stopped]) ∧
           m' = cleanupStream false m ∧
           STATE m' = STATE m ∧
           index <$> intervals m' = index <$> intervals m ∧
           sent <$> socks m' = sent <$> socks m ∧
           sends m' = sends m) ∧
  (playTimer m = Some t →
     (∃ m', step m ReqPause = Some (m', [Broadcast status_stopped; Respond 200 ok_body]) ∧
            step m' (Tick t) = None) ∧
     (∀ f fl, f ≠ "" → found m f = Some fl →
        ∃ m' out, step m (ReqPlay (Some f)) = Some (m', out) ∧
                  step m' (Tick t) = None)).
Proof.
  intros Hiv Hc. split.
  - intros Hg. exists (cleanupStream false m).
    split; [exact (tick_stops m t iv Hiv Hc Hg)|].
    split; [reflexivity|].
    split; [apply cleanupStream_STATE|].
    split; [apply cleanupStream_index|].
    split; [apply cleanupStream_sent|apply cleanupStream_sends].
  - intros Ht. split.
    + eexists. split; [reflexivity|].
      apply tick_cleared. simpl. intros iv' Hiv'.
      exact (cleanupStream_clears _ _ _ _ Ht Hiv').
    + intros f fl Hf Hd.
      destruct (play_request (Some f) m) as [m' out] eqn:E.
      exists m', out. split; [unfold step; rewrite E; reflexivity|].
      apply tick_cleared. unfold play_request, falsy in E.
      destruct (String.eqb_spec f "") as [->|_]; [done|].
      rewrite Hd in E. destruct fl; injection E as <- <-; cbn; intros iv' Hiv';
        exact (cleanupStream_clears _ _ _ _ Ht Hiv').
Qed.

Lemma tick_tests_playing_and_cursor_witness :
  let m := after (boot demo_disk) (start "b.wav" 0 ++ frame_turn 0 (boot demo_disk)) in
  intervals m !! 0 = Some {| samples := [7%Z]; index := 1024; cleared := false |} ∧
  playTimer m = Some 0 ∧
  step m (Tick 0) = Some (cleanupStream false m, [Broadcast status_stopped]) ∧
  step (after m [ReqPause]) (Tick 0) = None.
Proof.
  intros m.
  assert (Hiv : intervals m !! 0
                = Some {| samples := [7%Z]; index := 1024; cleared := false |})
    by (vm_compute; reflexivity).
  assert (Ht : playTimer m = Some 0) by (vm_compute; reflexivity).
  destruct (tick_tests_playing_and_cursor m 0 _ Hiv eq_refl) as [Hstop Hsup].
  split; [exact Hiv|]. split; [exact Ht|]. split.
  - destruct Hstop as (m' & Hstep & -> & _); [right; simpl; lia|]. exact Hstep.
  - destruct (Hsup Ht) as [(m' & Hstep & Hnone) _].
    unfold after, run. rewrite Hstep. exact Hnone.
Defined.

(** C5 fails on the code: the tick that finds a playing session's cursor
    at the end clears the timer, closes the channel and broadcasts playing
    false, but it never writes [STATE.playing]; the flag stays true and the
    status endpoint keeps reporting a playing session.  ([/api/pause], its
    sibling, sets the flag before the same broadcast.) *)
Theorem finished_session_still_playing (m : Machine) (t : nat) (iv : Interval) :
  intervals m !! t = Some iv →
  cleared iv = false →
  playing (STATE m) = true →
  length (samples iv) ≤ index iv →
  ∃ m',
    step m (Tick t) = Some (m', [Broadcast status_stopped]) ∧
    playTimer m' = None ∧ zmqSock m' = None ∧
    STATE m' = STATE m ∧
    playing (STATE m') = true ∧
    ∃ body, step m' ReqStatus = Some (m', [Respond 200 body]) ∧
            field "playing" body = Some (JBool true).
Proof.
  intros Hiv Hc Hp Hle. exists (cleanupStream false m).
  split; [apply (tick_stops m t iv Hiv Hc); right; exact Hle|].
  split; [apply cleanupStream_playTimer|].
  split; [apply cleanupStream_zmqSock|].
  split; [apply cleanupStream_STATE|].
  split; [rewrite cleanupStream_playing; exact Hp|].
  eexists. split; [reflexivity|]. cbn. rewrite cleanupStream_playing, Hp. reflexivity.
Qed.

Lemma finished_session_still_playing_witness :
  let es := start "b.wav" 0 ++ frame_turn 0 (boot demo_disk) in
  let m := after (boot demo_disk) es in
  let iv := {| samples := [7%Z]; index := chunkSize; cleared := false |} in
  (∃ out, run (boot demo_disk) es = Some (m, out)) ∧
  intervals m !! 0 = Some iv ∧ playing (STATE m) = true ∧
  length (samples iv) ≤ index iv ∧
  ∃ m', step m (Tick 0) = Some (m', [Broadcast status_stopped]) ∧
        playTimer m' = None ∧ zmqSock m' = None ∧
        playing (STATE m') = true ∧
        step m' ReqStatus
        = Some (m', [Respond 200 (JObj [("playing", JBool true);
                                        ("currentFileId", JStr "b.wav");
                                        ("bytesSent", JNum 4)])]).
Proof.
  intros es m iv.
  assert (Hrun : ∃ out, run (boot demo_disk) es = Some (m, out)) by by_evaluation.
  assert (Hiv : intervals m !! 0 = Some iv) by by_evaluation.
  assert (Hp : playing (STATE m) = true) by by_evaluation.
  assert (Hle : length (samples iv) ≤ index iv) by (unfold iv, chunkSize; cbn [samples index length]; lia).
  destruct (finished_session_still_playing m 0 iv Hiv eq_refl Hp Hle)
    as (m' & Hstep & Ht & Hz & HS & Hp' & _).
  split; [exact Hrun|]. split; [exact Hiv|]. split; [exact Hp|]. split; [exact Hle|].
  exists m'. split; [exact Hstep|]. split; [exact Ht|]. split; [exact Hz|].
  split; [exact Hp'|].
  cbn [step]. unfold stream_status. rewrite HS.
  assert (HSm : STATE m = {| playing := true; currentFile := Some "b.wav"; bytesSent := 4 |})
    by by_evaluation.
  rewrite HSm. reflexivity.
Defined.


(** C8 as stated fails: after the only frame of a three-sample file the
    cursor stands at 1024, past [samples.length]. *)
Lemma cursor_passes_the_end :
  let es := start "a.wav" 0 ++ frame_turn 0 (boot demo_disk) in
  let m := after (boot demo_disk) es in
  (∃ out, run (boot demo_disk) es = Some (m, out)) ∧
  intervals m !! 0 = Some {| samples := [1; 2; 3]%Z; index := chunkSize; cleared := false |} ∧
  ¬ chunkSize ≤ length [1; 2; 3]%Z.
Proof.
  intros es m. split; [|split]; [by_evaluation..|].
  unfold chunkSize. cbn [length]. lia.
Qed.

(** ** Cutting a sample sequence in frames *)

Arguments chunkSize : simpl never.
Arguments BYTES_PER_ELEMENT : simpl never.

Lemma subarray_take_drop (b e : nat) (xs : list float32) :
  b ≤ e → subarray b e xs = take (e - b) (drop b xs).
Proof.
  intros Hbe. unfold subarray.
  destruct (decide (b ≤ length xs)) as [Hb|Hb].
  - rewrite (Nat.min_l b) by lia.
    destruct (decide (e ≤ length xs)) as [He|He].
    + rewrite (Nat.min_l e) by lia. reflexivity.
    + rewrite (Nat.min_r e) by lia.
      rewrite !take_ge; [reflexivity|rewrite length_drop; lia..].
  - rewrite (Nat.min_r b), (Nat.min_r e) by lia.
    rewrite !drop_ge by lia. rewrite !take_nil. reflexivity.
Qed.

Lemma subarray_chunk (smp : list float32) (k : nat) :
  subarray (chunkSize * k) (chunkSize * k + chunkSize) smp = chunk smp k.
Proof.
  rewrite subarray_take_drop by lia. unfold chunk. f_equal.
  unfold chunkSize. lia.
Qed.

Lemma length_chunk (smp : list float32) (k : nat) :
  length (chunk smp k) = chunkSize `min` (length smp - chunkSize * k).
Proof. unfold chunk. rewrite length_take, length_drop. reflexivity. Qed.

Lemma chunks_snoc (smp : list float32) (k : nat) :
  chunk smp <$> seq 0 (S k) = (chunk smp <$> seq 0 k) ++ [chunk smp k].
Proof. rewrite seq_S, fmap_app. reflexivity. Qed.

Lemma concat_chunks (smp : list float32) (k : nat) :
  concat (chunk smp <$> seq 0 k) = take (chunkSize * k) smp.
Proof.
  induction k as [|k IH].
  - rewrite Nat.mul_0_r. reflexivity.
  - rewrite chunks_snoc, concat_app, IH. cbn [concat]. rewrite app_nil_r.
    unfold chunk. rewrite take_take_drop, Nat.mul_succ_r. reflexivity.
Qed.

Lemma frame_count_spec (L : nat) :
  L ≤ chunkSize * frame_count L ∧ chunkSize * frame_count L < L + chunkSize.
Proof.
  unfold frame_count.
  pose proof (Nat.div_mod_eq (L + (chunkSize - 1)) chunkSize) as H.
  pose proof (Nat.mod_upper_bound (L + (chunkSize - 1)) chunkSize) as Hr.
  unfold chunkSize in *. lia.
Qed.


(** ** The emission loop when sends keep up *)

Lemma exits_app (o1 o2 : list effect) : exits (o1 ++ o2) = exits o1 || exits o2.
Proof. apply existsb_app. Qed.

Lemma run_app (m : Machine) (es1 es2 : list Event) :
  run m (es1 ++ es2) =
  match run m es1 with
  | Some (m1, out1) =>
      if exits out1 && negb (bool_decide (es2 = [])) then None
      else match run m1 es2 with
           | Some (m2, out2) => Some (m2, out1 ++ out2)
           | None => None
           end
  | None => None
  end.
Proof.
  revert m. induction es1 as [|e es1 IH]; intros m.
  - cbn. destruct (run m es2) as [[m2 out2]|]; reflexivity.
  - cbn [app run]. destruct (step m e) as [[m1 out1]|]; [|reflexivity].
    destruct (exits out1) eqn:Ex; cbn [andb].
    + destruct es1 as [|e1 es1]; [|reflexivity].
      cbn. rewrite app_nil_r, Ex. cbn [andb].
      destruct es2 as [|e2 es2]; cbn; [rewrite app_nil_r; reflexivity|reflexivity].
    + rewrite IH. destruct (run m1 es1) as [[m2 out2]|]; [|reflexivity].
      rewrite exits_app, Ex. cbn [orb].
      destruct (exits out2 && negb (bool_decide (es2 = []))); [reflexivity|].
      destruct (run m2 es2) as [[m3 out3]|]; [|reflexivity].
      rewrite app_assoc. reflexivity.
Qed.

(** A turn that did not end the process is followed by the rest of the
    schedule. *)
Lemma run_cons (m m1 : Machine) (e : Event) (out1 : list effect) (rest : list Event) :
  step m e = Some (m1, out1) →
  exits out1 = false →
  run m (e :: rest) = match run m1 rest with
                      | Some (m2, out2) => Some (m2, out1 ++ out2)
                      | None => None
                      end.
Proof. intros Hs Hx. cbn [run]. rewrite Hs, Hx. reflexivity. Qed.

(** What a schedule that ran was made of. *)
Lemma run_cons_inv (m m2 : Machine) (e : Event) (rest : list Event) (out : list effect) :
  run m (e :: rest) = Some (m2, out) →
  ∃ m1 out1 out2, step m e = Some (m1, out1) ∧ run m1 rest = Some (m2, out2) ∧
                  out = out1 ++ out2 ∧ (rest ≠ [] → exits out1 = false).
Proof.
  cbn [run]. destruct (step m e) as [[m1 out1]|] eqn:Es; [|discriminate].
  destruct (exits out1 && negb (bool_decide (rest = []))) eqn:Ex; [discriminate|].
  destruct (run m1 rest) as [[m2' out2]|] eqn:Er; [|discriminate].
  intros [= <- <-]. exists m1, out1, out2.
  split; [reflexivity|]. split; [exact Er|]. split; [reflexivity|].
  intros Hne. apply andb_false_iff in Ex as [Ex|Ex]; [exact Ex|].
  apply negb_false_iff, bool_decide_eq_true in Ex. contradiction.
Qed.

Lemma run_app_live (m m1 : Machine) (es1 es2 : list Event) (out1 : list effect) :
  run m es1 = Some (m1, out1) →
  exits out1 = false →
  run m (es1 ++ es2) = match run m1 es2 with
                       | Some (m2, out2) => Some (m2, out1 ++ out2)
                       | None => None
                       end.
Proof. intros Hr Hx. rewrite run_app, Hr, Hx. reflexivity. Qed.

Lemma frame_turns_snoc (t k0 n : nat) :
  frame_turns t k0 (S n) = frame_turns t k0 n ++ [Tick t; SendDone (k0 + n)].
Proof.
  unfold frame_turns. rewrite seq_S, flat_map_app. simpl. reflexivity.
Qed.

Lemma frame_turn_looping (t s : nat) (smp : list float32) (k : nat) (m : Machine) :
  looping t s smp k m →
  chunkSize * k < length smp →
  ∃ m', run m (frame_turn t m) = Some (m', []) ∧
        looping t s smp (S k) m' ∧
        length (sends m') = S (length (sends m)).
Proof.
  intros (Hiv & Hpt & Hp & Hz & Hs & Hb) Hlt.
  unfold frame_turn, run, step, tick. rewrite Hiv. cbn [cleared samples index].
  rewrite Hp. cbn [negb orb].
  destruct (Nat.leb_spec (length smp) (chunkSize * k)) as [Hle|_]; [lia|].
  rewrite Hz, subarray_chunk.
  unfold send_done. cbn [sends with_sends send with_socks].
  rewrite lookup_app_r, Nat.sub_diag by lia. cbn [lookup list_lookup settled owner buf_length].
  eexists. split; [reflexivity|]. split; [|cbn; rewrite length_insert, length_app; simpl; lia].
  unfold looping. rewrite chunks_snoc, concat_app, length_app. cbn.
  rewrite !list_lookup_alter_eq, Hiv, Hs, Hb. cbn.
  split; [rewrite Nat.mul_succ_r; reflexivity|]. split; [exact Hpt|].
  split; [exact Hp|]. split; [exact Hz|].
  split; [reflexivity|]. rewrite app_nil_r. unfold BYTES_PER_ELEMENT. lia.
Qed.

Lemma frame_turns_looping (t s : nat) (smp : list float32) (m : Machine) (k : nat) :
  looping t s smp 0 m →
  k ≤ frame_count (length smp) →
  ∃ mk, run m (frame_turns t (length (sends m)) k) = Some (mk, []) ∧
        looping t s smp k mk ∧
        length (sends mk) = length (sends m) + k.
Proof.
  intros H0. induction k as [|k IH]; intros Hk.
  - exists m. split; [reflexivity|]. split; [exact H0|lia].
  - destruct IH as (mk & Hrun & Hloop & Hlen); [lia|].
    destruct (frame_turn_looping t s smp k mk Hloop) as (m' & Hturn & Hloop' & Hlen').
    { destruct (frame_count_spec (length smp)) as [_ Hub].
      unfold chunkSize in *. lia. }
    exists m'. rewrite frame_turns_snoc, run_app, Hrun.
    unfold frame_turn in Hturn. rewrite Hlen in Hturn. rewrite Hturn.
    split; [reflexivity|]. split; [exact Hloop'|lia].
Qed.




(** ** Invariants along schedules *)

Opaque cleanupStream.

Lemma sched_invariant (ok : Machine → Event → bool) (I : Machine → Prop) :
  (∀ m e m' out, I m → ok m e = true → step m e = Some (m', out) → I m') →
  ∀ es m m' out, I m → sched ok m es = true → run m es = Some (m', out) → I m'.
Proof.
  intros Hstep es. induction es as [|e es IH]; intros m m' out HI Hok Hrun.
  - injection Hrun as <- _. exact HI.
  - cbn [sched] in Hok. apply andb_prop in Hok as [Hoke Hrest].
    apply run_cons_inv in Hrun as (m1 & out1 & out2 & E & E2 & _ & _).
    rewrite E in Hrest.
    exact (IH m1 m' out2 (Hstep m e m1 out1 HI Hoke E) Hrest E2).
Qed.

Lemma sched_app (ok : Machine → Event → bool) (es1 es2 : list Event) (m m1 : Machine)
      (out1 : list effect) :
  run m es1 = Some (m1, out1) →
  sched ok m (es1 ++ es2) = true →
  sched ok m es1 = true ∧ sched ok m1 es2 = true.
Proof.
  revert m out1. induction es1 as [|e es1 IH]; intros m out1 Hrun Hok.
  - injection Hrun as <- _. split; [reflexivity|exact Hok].
  - apply run_cons_inv in Hrun as (m' & o1 & o2 & E & E2 & _ & _).
    cbn [app sched] in *. apply andb_prop in Hok as [Hoke Hrest].
    rewrite E in *. rewrite Hoke. exact (IH m' o2 E2 Hrest).
Qed.


Lemma is_live_cleanupStream (r : bool) (m : Machine) (t : nat) :
  is_live (cleanupStream r m) t → is_live m t ∧ playTimer m ≠ Some t.
Proof.
  unfold is_live. rewrite cleanupStream_intervals. intros (iv & Hiv & Hc).
  destruct (playTimer m) as [t0|] eqn:Et.
  - rewrite list_lookup_alter in Hiv. case_decide as Heq.
    + subst t0. destruct (intervals m !! t); simpl in Hiv; [|discriminate].
      injection Hiv as <-. discriminate Hc.
    + split; [eauto|congruence].
  - split; [eauto|discriminate].
Qed.

Lemma closes_cleanupStream (r : bool) (m : Machine) (s : nat) (p : Publisher) :
  socks (cleanupStream r m) !! s = Some p →
  ∃ p0, socks m !! s = Some p0 ∧ sent p = sent p0 ∧
        closes p = if decide (zmqSock m = Some s) then S (closes p0) else closes p0.
Proof.
  rewrite cleanupStream_socks. destruct (zmqSock m) as [s0|] eqn:Es.
  - rewrite list_lookup_alter. case_decide as Heq.
    + subst s0. destruct (socks m !! s) as [p0|]; simpl; [|discriminate].
      intros [= <-]. exists p0. rewrite decide_True by reflexivity. auto.
    + intros Hp. exists p. rewrite decide_False by congruence. auto.
  - intros Hp. exists p. rewrite decide_False by discriminate. auto.
Qed.







(** C1 as stated fails: a start taken up while another start is
    suspended at its decode finds nothing to tear down, and both go on.
    Two intervals fire, the first one out of reach of every later
    [cleanupStream]; the first socket is never closed, not even by a
    stop. *)
Lemma overlapping_starts_leak :
  let es := [ReqPlay (Some "a.wav"); ReqPlay (Some "b.wav");
             DecodeDone 0; DecodeDone 1; ConnectDone 0 true; ConnectDone 1 true] in
  let m := after (boot demo_disk) es in
  (∃ out, run (boot demo_disk) es = Some (m, out)) ∧
  sched serial_starts (boot demo_disk) es = false ∧
  samples <$> intervals m = [[1; 2; 3]; [7]]%Z ∧
  cleared <$> intervals m = [false; false] ∧
  playTimer m = Some 1 ∧
  closes <$> socks m = [0; 0] ∧
  zmqSock m = Some 1 ∧
  cleared <$> intervals (after m [ReqPause]) = [false; true] ∧
  closes <$> socks (after m [ReqPause]) = [0; 1].
Proof.
  intros es m. by_evaluation.
Qed.



(** ** A start that fails after the file was found *)

Lemma torn_down_cleanupStream (m : Machine) (tA sA : nat) (pA : Publisher) :
  playTimer m = Some tA →
  zmqSock m = Some sA →
  (∀ t, is_live m t → t = tA) →
  socks m !! sA = Some pA →
  torn_down m sA pA (cleanupStream true m).
Proof.
  intros HtA HsA Hone HpA. unfold torn_down.
  split; [apply cleanupStream_playTimer|].
  split.
  { intros t Ht. apply is_live_cleanupStream in Ht as [Hl Hne].
    apply Hone in Hl. congruence. }
  split; [rewrite cleanupStream_socks, HsA, list_lookup_alter_eq, HpA; reflexivity|].
  split; [apply cleanupStream_bytesSent|].
  split; [apply cleanupStream_playing|].
  split; [apply cleanupStream_currentFile|].
  eexists. split; [reflexivity|]. cbn. rewrite cleanupStream_playing. reflexivity.
Qed.

(** The suspended handlers and the sockets opened later do not matter to
    what was torn down. *)
Lemma torn_down_frame (m : Machine) (sA : nat) (pA : Publisher) (c m' : Machine) :
  torn_down m sA pA c →
  STATE m' = STATE c → playTimer m' = playTimer c → intervals m' = intervals c →
  (∃ more, socks m' = socks c ++ more) →
  torn_down m sA pA m'.
Proof.
  intros (H1 & H2 & H3 & H4 & H5 & H6 & _) HS HT HI [more HK]. unfold torn_down, is_live.
  rewrite HS, HT, HI, HK.
  split; [exact H1|]. split; [exact H2|].
  split; [apply lookup_app_l_Some; exact H3|].
  split; [exact H4|]. split; [exact H5|]. split; [exact H6|].
  eexists. split; [reflexivity|]. cbn. rewrite HS, H5. reflexivity.
Qed.

(** C10.  A start over a playing session whose file exists but cannot be
    read or decoded, or whose socket fails to connect, is answered 500
    after [cleanupStream(true)] has run: the timer is cleared and no
    interval fires any more, the session's socket has received one
    [close()], [bytesSent] is 0, while [playing] and [currentFile] are what
    they were, so the status endpoint goes on reporting the playing flag of
    the session that is gone (true, for a session that was playing). *)
Theorem failed_start_tears_down (m : Machine) (f : string) (fl : file) (tA sA : nat)
        (pA : Publisher) :
  f ≠ "" →
  found m f = Some fl →
  playTimer m = Some tA →
  zmqSock m = Some sA →
  (∀ t, is_live m t → t = tA) →
  socks m !! sA = Some pA →
  let p := length (plays m) in
  let failed := [Respond 500 (error_body "failed to play")] in
  match fl with
  | Directory | Unreadable =>
      ∃ m', step m (ReqPlay (Some f)) = Some (m', failed) ∧
            torn_down m sA pA m' ∧ zmqSock m' = None
  | Readable None =>
      ∃ m1 m', step m (ReqPlay (Some f)) = Some (m1, []) ∧
               torn_down m sA pA m1 ∧
               step m1 (DecodeDone p) = Some (m', failed) ∧
               torn_down m sA pA m' ∧ zmqSock m' = None
  | Readable (Some smp) =>
      ∃ m1 m2 m', step m (ReqPlay (Some f)) = Some (m1, []) ∧
                  torn_down m sA pA m1 ∧
                  step m1 (DecodeDone p) = Some (m2, []) ∧
                  step m2 (ConnectDone p false) = Some (m', failed) ∧
                  torn_down m sA pA m' ∧ zmqSock m' = Some (length (socks m))
  end.
Proof.
  intros Hf Hd HtA HsA Hone HpA p failed.
  pose proof (torn_down_cleanupStream m tA sA pA HtA HsA Hone HpA) as Htd.
  set (c := cleanupStream true m) in *.
  assert (Hlen_p : length (plays c) = p) by (unfold c; rewrite cleanupStream_plays; reflexivity).
  assert (Hlen_s : length (socks c) = length (socks m)).
  { unfold c. rewrite cleanupStream_socks, HsA, length_alter. reflexivity. }
  assert (Hreq : step m (ReqPlay (Some f))
                 = Some (match fl with
                         | Readable d => (with_plays (plays c ++ [AwaitDecode f d]) c, [])
                         | _ => (c, failed)
                         end)).
  { cbn [step]. unfold play_request, falsy.
    destruct (String.eqb_spec f "") as [->|_]; [done|]. rewrite Hd.
    destruct fl; reflexivity. }
  destruct fl as [| |[smp|]].
  - exists c. split; [exact Hreq|]. split; [exact Htd|].
    apply cleanupStream_zmqSock.
  - exists c. split; [exact Hreq|]. split; [exact Htd|].
    apply cleanupStream_zmqSock.
  - set (m1 := with_plays (plays c ++ [AwaitDecode f (Some smp)]) c) in *.
    assert (Htd1 : torn_down m sA pA m1).
    { apply (torn_down_frame m sA pA c); try reflexivity; [exact Htd|].
      exists []. rewrite app_nil_r. reflexivity. }
    set (m2 := with_plays (<[p := AwaitConnect f smp]> (plays m1))
                 (with_zmqSock (Some (length (socks c)))
                    (with_socks (socks c ++ [{| sent := []; closes := 0 |}]) m1))).
    assert (Hdec : step m1 (DecodeDone p) = Some (m2, [])).
    { cbn [step]. unfold play_decoded. cbn [plays m1 with_plays].
      rewrite lookup_app_r, Hlen_p, Nat.sub_diag by lia. reflexivity. }
    assert (Hp2 : plays m2 !! p = Some (AwaitConnect f smp)).
    { unfold m2. cbn [plays with_plays]. apply list_lookup_insert_eq.
      unfold m1. cbn [plays with_plays]. rewrite length_app, Hlen_p. simpl. lia. }
    exists m1, m2, (with_plays (<[p := Returned]> (plays m2)) m2).
    split; [exact Hreq|]. split; [exact Htd1|]. split; [exact Hdec|].
    split; [cbn [step]; unfold play_connected; rewrite Hp2; reflexivity|].
    split; [|cbn; rewrite Hlen_s; reflexivity].
    apply (torn_down_frame m sA pA c); try reflexivity; [exact Htd|].
    eexists. reflexivity.
  - set (m1 := with_plays (plays c ++ [AwaitDecode f None]) c) in *.
    assert (Htd1 : torn_down m sA pA m1).
    { apply (torn_down_frame m sA pA c); try reflexivity; [exact Htd|].
      exists []. rewrite app_nil_r. reflexivity. }
    exists m1, (with_plays (<[p := Returned]> (plays m1)) m1).
    split; [exact Hreq|]. split; [exact Htd1|].
    split.
    { cbn [step]. unfold play_decoded. cbn [plays m1 with_plays].
      rewrite lookup_app_r, Hlen_p, Nat.sub_diag by lia. reflexivity. }
    split; [|apply cleanupStream_zmqSock].
    apply (torn_down_frame m sA pA c); try reflexivity; [exact Htd|].
    exists []. rewrite app_nil_r. reflexivity.
Qed.

Lemma failed_start_tears_down_witness :
  let m := after (boot demo_disk) (start "a.wav" 0 ++ frame_turn 0 (boot demo_disk)) in
  let pA := {| sent := [[1; 2; 3]%Z]; closes := 0 |} in
  "noise.bin" ≠ "" ∧ found m "noise.bin" = Some (Readable None) ∧
  playing (STATE m) = true ∧ playTimer m = Some 0 ∧ zmqSock m = Some 0 ∧
  (∀ t, is_live m t → t = 0) ∧ socks m !! 0 = Some pA ∧
  ∃ m1 m',
    step m (ReqPlay (Some "noise.bin")) = Some (m1, []) ∧
    step m1 (DecodeDone 1) = Some (m', [Respond 500 (error_body "failed to play")]) ∧
    torn_down m 0 pA m'.
Proof.
  intros m pA.
  assert (Hf : "noise.bin" ≠ "") by discriminate.
  assert (Hd : found m "noise.bin" = Some (Readable None)) by by_evaluation.
  assert (Hplay : playing (STATE m) = true) by by_evaluation.
  assert (HtA : playTimer m = Some 0) by by_evaluation.
  assert (HsA : zmqSock m = Some 0) by by_evaluation.
  assert (HpA : socks m !! 0 = Some pA) by by_evaluation.
  assert (Hone : ∀ t, is_live m t → t = 0).
  { intros t (iv & Hiv & _). apply lookup_lt_Some in Hiv.
    assert (Hlen : length (intervals m) = 1) by by_evaluation. lia. }
  pose proof (failed_start_tears_down m "noise.bin" (Readable None) 0 0 pA
                Hf Hd HtA HsA Hone HpA) as (m1 & m' & G1 & _ & G3 & G4 & _).
  repeat (split; [assumption|]).
  exists m1, m'. split; [exact G1|]. split; [|exact G4].
  assert (Hp : length (plays m) = 1) by by_evaluation.
  rewrite Hp in G3. exact G3.
Defined.

(** ** Cursors and suspended sends *)

Lemma cursors_cleanupStream (r : bool) (m : Machine) :
  cursors (cleanupStream r m) = cursors m.
Proof.
  unfold cursors. rewrite cleanupStream_intervals. destruct (playTimer m); [|reflexivity].
  rewrite (list_fmap_alter _ _ id) by (apply Forall_forall; reflexivity).
  apply list_alter_id. reflexivity.
Qed.

Lemma step_advance (m : Machine) (e : Event) (m' : Machine) (out : list effect) :
  step m e = Some (m', out) → advance m e m'.
Proof.
  intros Hstep. destruct e as [fileId|p|p ok|t|k| |]; cbn [step] in Hstep.
  - apply advance_none; unfold play_request in Hstep;
      destruct fileId as [f|]; try (injection Hstep as <- _; reflexivity);
      destruct (falsy (Some f)); try (injection Hstep as <- _; reflexivity);
      destruct (found m f) as [[| |d]|]; injection Hstep as <- _;
      first [reflexivity | apply cursors_cleanupStream | apply cleanupStream_sends].
  - unfold play_decoded in Hstep.
    destruct (plays m !! p) as [[f [smp|]|f smp|]|]; try discriminate;
      injection Hstep as <- _; apply advance_none; reflexivity.
  - unfold play_connected in Hstep.
    destruct (plays m !! p) as [[f d|f smp|]|]; try discriminate.
    destruct ok; injection Hstep as <- _.
    + apply (advance_new _ _ _ smp); [|reflexivity].
      unfold cursors. cbn. rewrite fmap_app. reflexivity.
    + apply advance_none; reflexivity.
  - unfold tick in Hstep.
    destruct (intervals m !! t) as [iv|] eqn:Eiv; [|discriminate].
    destruct (cleared iv); [discriminate|].
    destruct (playing (STATE m)); cbn [negb orb] in Hstep.
    2:{ injection Hstep as <- _. apply advance_none;
          [apply cursors_cleanupStream|apply cleanupStream_sends]. }
    destruct (Nat.leb_spec (length (samples iv)) (index iv)) as [Hle|Hlt].
    { injection Hstep as <- _. apply advance_none;
        [apply cursors_cleanupStream|apply cleanupStream_sends]. }
    destruct (zmqSock m) as [s|]; injection Hstep as <- _;
      [|apply advance_none; reflexivity].
    eapply (advance_send _ _ _ (samples iv) (index iv)); [|exact Hlt|reflexivity..].
    unfold cursors. rewrite list_lookup_fmap, Eiv. reflexivity.
  - unfold send_done in Hstep.
    destruct (sends m !! k) as [tk|] eqn:Ek; [|discriminate].
    destruct (settled tk) eqn:Es; [discriminate|]. injection Hstep as <- _.
    apply (advance_done _ _ _ tk); [exact Ek|exact Es|reflexivity|].
    unfold cursors. cbn.
    apply list_fmap_alter, Forall_forall. reflexivity.
  - injection Hstep as <- _. apply advance_none;
      [apply cursors_cleanupStream|apply cleanupStream_sends].
  - injection Hstep as <- _. apply advance_none; reflexivity.
Qed.

Lemma cursors_lookup (m : Machine) (t : nat) (iv : Interval) :
  intervals m !! t = Some iv → cursors m !! t = Some (samples iv, index iv).
Proof. intros H. unfold cursors. rewrite list_lookup_fmap, H. reflexivity. Qed.

Lemma cursors_lookup_inv (m : Machine) (t : nat) (smp : list float32) (i : nat) :
  cursors m !! t = Some (smp, i) →
  ∃ iv, intervals m !! t = Some iv ∧ samples iv = smp ∧ index iv = i.
Proof.
  unfold cursors. rewrite list_lookup_fmap.
  destruct (intervals m !! t) as [iv|]; [|discriminate].
  intros [= <- <-]. eauto.
Qed.

(** A turn never moves a cursor backwards, and never changes the samples
    of an interval. *)
Lemma advance_monotone (m : Machine) (e : Event) (m' : Machine) (t : nat)
      (smp : list float32) (i : nat) :
  advance m e m' →
  cursors m !! t = Some (smp, i) →
  ∃ i', cursors m' !! t = Some (smp, i') ∧ i ≤ i' ∧ i' ≤ i + chunkSize.
Proof.
  intros Hadv Ht. destruct Hadv as [e m' Hc _|e m' smp' Hc _|t' m' smp' i' n _ _ Hc _|k m' tk _ _ _ Hc];
    rewrite Hc.
  - exists i. split; [exact Ht|lia].
  - exists i. split; [apply lookup_app_l_Some; exact Ht|lia].
  - exists i. split; [exact Ht|lia].
  - rewrite list_lookup_alter. case_decide as Heq.
    + subst t. rewrite Ht. exists (i + chunkSize). split; [reflexivity|lia].
    + exists i. split; [exact Ht|lia].
Qed.

Lemma run_monotone (es : list Event) (m m' : Machine) (out : list effect) (t : nat)
      (smp : list float32) (i : nat) :
  run m es = Some (m', out) →
  cursors m !! t = Some (smp, i) →
  ∃ i', cursors m' !! t = Some (smp, i') ∧ i ≤ i'.
Proof.
  revert m out i. induction es as [|e es IH]; intros m out i Hrun Ht.
  - injection Hrun as <- _. exists i. split; [exact Ht|lia].
  - apply run_cons_inv in Hrun as (m1 & out1 & out2 & E & E2 & _ & _).
    destruct (advance_monotone m e m1 t smp i (step_advance _ _ _ _ E) Ht)
      as (i1 & Ht1 & Hle & _).
    destruct (IH m1 out2 i1 E2 Ht1) as (i' & Ht' & Hle').
    exists i'. split; [exact Ht'|lia].
Qed.

Lemma no_send_pending_spec (t : nat) (m : Machine) :
  no_send_pending t m = true ↔ ¬ send_pending m t.
Proof.
  unfold no_send_pending, send_pending. rewrite forallb_forall. split.
  - intros H (k & tk & Hk & Hs & Ho).
    assert (Hin : In tk (sends m)).
    { apply list_elem_of_In, list_elem_of_lookup. eauto. }
    specialize (H tk Hin). rewrite Hs, Ho, Nat.eqb_refl in H. discriminate H.
  - intros H tk Hin. apply list_elem_of_In, list_elem_of_lookup in Hin as [k Hk].
    destruct (settled tk) eqn:Hs; [reflexivity|].
    destruct (Nat.eqb_spec (owner tk) t) as [Ho|Ho]; [|reflexivity].
    destruct H. eauto.
Qed.

Lemma chunkSize_pos : 0 < chunkSize.
Proof. unfold chunkSize. lia. Qed.

Lemma cursor_inv_step (m : Machine) (e : Event) (m' : Machine) (out : list effect) :
  cursor_inv m →
  serial_sends m e = true →
  step m e = Some (m', out) →
  cursor_inv m'.
Proof.
  intros (H1 & H2 & H3) Hok Hstep. pose proof chunkSize_pos as Hpos.
  destruct (step_advance m e m' out Hstep)
    as [e m' Hc Hs|e m' smp' Hc Hs|t' m' smp' i' n Ht' Hlt Hc Hs|k m' tk Hk Hset Hs Hc];
    unfold cursor_inv, send_pending; rewrite Hc, Hs.
  - split; [exact H1|]. split; [exact H2|exact H3].
  - split; [intros k tk Hk; rewrite length_app; specialize (H1 k tk Hk); simpl; lia|].
    split; [exact H2|].
    intros t smp i Ht. apply lookup_app_Some in Ht as [Ht|[Hlen Ht]]; [exact (H3 t smp i Ht)|].
    apply list_lookup_singleton_Some in Ht as [Ht [= <- <-]].
    split; [lia|]. intros (k & tk & Hk & _ & Ho). specialize (H1 k tk Hk). lia.
  - cbn [serial_sends] in Hok. apply no_send_pending_spec in Hok.
    split.
    { intros k tk Hk. apply lookup_app_Some in Hk as [Hk|[_ Hk]]; [exact (H1 k tk Hk)|].
      apply list_lookup_singleton_Some in Hk as [_ <-]. cbn.
      eapply lookup_lt_Some. exact Ht'. }
    split.
    { intros k k' tk tk' Hk Hk' Hsk Hsk' Ho.
      apply lookup_app_Some in Hk as [Hk|[Hlen Hk]];
        apply lookup_app_Some in Hk' as [Hk'|[Hlen' Hk']].
      - exact (H2 k k' tk tk' Hk Hk' Hsk Hsk' Ho).
      - apply list_lookup_singleton_Some in Hk' as [_ <-]. cbn in Ho.
        destruct Hok. exists k, tk. auto.
      - apply list_lookup_singleton_Some in Hk as [_ <-]. cbn in Ho.
        destruct Hok. exists k', tk'. auto.
      - apply list_lookup_singleton_Some in Hk as [Hk _].
        apply list_lookup_singleton_Some in Hk' as [Hk' _]. lia. }
    intros t smp i Ht. destruct (H3 t smp i Ht) as [Hb Hp]. split; [exact Hb|].
    intros (k & tk & Hk & Hsk & Ho).
    apply lookup_app_Some in Hk as [Hk|[_ Hk]]; [apply Hp; exists k, tk; auto|].
    apply list_lookup_singleton_Some in Hk as [_ <-]. cbn in Ho. subst t'.
    rewrite Ht' in Ht. injection Ht as <- <-. exact Hlt.
  - assert (Hklt : k < length (sends m)) by (eapply lookup_lt_Some; exact Hk).
    assert (Hunset : ∀ k1 tk1, <[k := settle tk]> (sends m) !! k1 = Some tk1 →
                               settled tk1 = false → k1 ≠ k ∧ sends m !! k1 = Some tk1).
    { intros k1 tk1 Hk1 Hs1. destruct (decide (k1 = k)) as [->|Hne].
      - rewrite list_lookup_insert_eq in Hk1 by exact Hklt.
        injection Hk1 as <-. discriminate Hs1.
      - rewrite list_lookup_insert_ne in Hk1 by congruence. auto. }
    split.
    { intros k1 tk1 Hk1. rewrite length_alter.
      destruct (decide (k1 = k)) as [->|Hne].
      - rewrite list_lookup_insert_eq in Hk1 by exact Hklt.
        injection Hk1 as <-. exact (H1 k tk Hk).
      - rewrite list_lookup_insert_ne in Hk1 by congruence. exact (H1 k1 tk1 Hk1). }
    split.
    { intros k1 k2 tk1 tk2 Hk1 Hk2 Hs1 Hs2 Ho.
      destruct (Hunset k1 tk1 Hk1 Hs1) as [_ Hk1'].
      destruct (Hunset k2 tk2 Hk2 Hs2) as [_ Hk2'].
      exact (H2 k1 k2 tk1 tk2 Hk1' Hk2' Hs1 Hs2 Ho). }
    intros t smp i Ht. rewrite list_lookup_alter in Ht. case_decide as Heq.
    + subst t. destruct (cursors m !! owner tk) as [[smp0 i0]|] eqn:E0; [|discriminate].
      cbn in Ht. injection Ht as <- <-.
      destruct (H3 (owner tk) smp0 i0 E0) as [_ Hp].
      assert (Hlt0 : i0 < length smp0) by (apply Hp; exists k, tk; auto).
      split; [lia|].
      intros (k1 & tk1 & Hk1 & Hs1 & Ho1).
      destruct (Hunset k1 tk1 Hk1 Hs1) as [Hne Hk1'].
      destruct Hne. exact (H2 k1 k tk1 tk Hk1' Hk Hs1 Hset Ho1).
    + destruct (H3 t smp i Ht) as [Hb Hp]. split; [exact Hb|].
      intros (k1 & tk1 & Hk1 & Hs1 & Ho1).
      destruct (Hunset k1 tk1 Hk1 Hs1) as [_ Hk1'].
      apply Hp. exists k1, tk1. auto.
Qed.

Lemma cursor_inv_boot (d : Disk) : cursor_inv (boot d).
Proof.
  unfold cursor_inv, send_pending, cursors, boot. cbn.
  repeat split; intros *; rewrite ?lookup_nil; discriminate.
Qed.

(** C8, amended.  Within a session the cursor never decreases (and the
    samples it runs over never change), whatever the schedule.  It does
    pass [samples.length]: a fulfilled send moves it by a whole chunk even
    after a short last frame.  When every send is fulfilled before the
    next tick of its interval, the cursor stays less than one chunk past
    the end. *)
Theorem cursor_never_decreases (d : Disk) (es1 es2 : list Event)
        (m1 m2 : Machine) (out1 out2 : list effect) (t : nat) (iv1 : Interval) :
  run (boot d) es1 = Some (m1, out1) →
  run m1 es2 = Some (m2, out2) →
  intervals m1 !! t = Some iv1 →
  ∃ iv2, intervals m2 !! t = Some iv2 ∧
         samples iv2 = samples iv1 ∧
         index iv1 ≤ index iv2 ∧
         (sched serial_sends (boot d) (es1 ++ es2) = true →
          index iv2 < length (samples iv2) + chunkSize).
Proof.
  intros Hrun1 Hrun2 Hiv1.
  destruct (run_monotone es2 m1 m2 out2 t _ _ Hrun2 (cursors_lookup m1 t iv1 Hiv1))
    as (i2 & Hc2 & Hle).
  destruct (cursors_lookup_inv m2 t _ _ Hc2) as (iv2 & Hiv2 & Hsmp & Hidx).
  exists iv2. split; [exact Hiv2|]. split; [exact Hsmp|]. split; [lia|].
  intros Hok.
  destruct (sched_app serial_sends es1 es2 (boot d) m1 out1 Hrun1 Hok) as [Hok1 Hok2].
  pose proof (sched_invariant serial_sends cursor_inv cursor_inv_step
                es1 (boot d) m1 _ (cursor_inv_boot d) Hok1 Hrun1) as Hinv1.
  pose proof (sched_invariant serial_sends cursor_inv cursor_inv_step
                es2 m1 m2 _ Hinv1 Hok2 Hrun2) as (_ & _ & H3).
  destruct (H3 t _ _ Hc2) as [Hb _]. rewrite Hsmp, Hidx. exact Hb.
Qed.

Lemma cursor_never_decreases_witness :
  let es1 := start "a.wav" 0 in
  let es2 := frame_turn 0 (boot demo_disk) in
  let m1 := after (boot demo_disk) es1 in
  let m2 := after m1 es2 in
  let iv1 := {| samples := [1; 2; 3]%Z; index := 0; cleared := false |} in
  intervals m1 !! 0 = Some iv1 ∧
  sched serial_sends (boot demo_disk) (es1 ++ es2) = true ∧
  ∃ iv2, intervals m2 !! 0 = Some iv2 ∧ samples iv2 = [1; 2; 3]%Z ∧
         0 ≤ index iv2 ∧ index iv2 < 3 + chunkSize.
Proof.
  intros es1 es2 m1 m2 iv1.
  assert (Hrun1 : ∃ out, run (boot demo_disk) es1 = Some (m1, out)) by by_evaluation.
  destruct Hrun1 as [out1 Hrun1].
  assert (Hrun2 : ∃ out, run m1 es2 = Some (m2, out)) by by_evaluation.
  destruct Hrun2 as [out2 Hrun2].
  assert (Hiv1 : intervals m1 !! 0 = Some iv1) by by_evaluation.
  assert (Hok : sched serial_sends (boot demo_disk) (es1 ++ es2) = true) by by_evaluation.
  destruct (cursor_never_decreases demo_disk es1 es2 m1 m2 out1 out2 0 iv1 Hrun1 Hrun2 Hiv1)
    as (iv2 & Hiv2 & Hsmp & Hle & Hb).
  split; [exact Hiv1|]. split; [exact Hok|].
  exists iv2. split; [exact Hiv2|]. split; [exact Hsmp|]. split; [exact Hle|].
  specialize (Hb Hok). rewrite Hsmp in Hb. exact Hb.
Defined.

(** ** Frames and cursor order *)

Lemma run_invariant (I : Machine → Prop) :
  (∀ m e m' out, I m → step m e = Some (m', out) → I m') →
  ∀ es m m' out, I m → run m es = Some (m', out) → I m'.
Proof.
  intros Hstep es. induction es as [|e es IH]; intros m m' out HI Hrun.
  - injection Hrun as <- _. exact HI.
  - apply run_cons_inv in Hrun as (m1 & out1 & out2 & E & E2 & _ & _).
    exact (IH m1 m' out2 (Hstep m e m1 out1 HI E) E2).
Qed.




(** ** What holds in every schedule *)

Lemma socks_cleanupStream_true (m : Machine) :
  socks (cleanupStream true m) = socks (cleanupStream false m).
Proof. rewrite !cleanupStream_socks. reflexivity. Qed.

Lemma step_socket_move (m : Machine) (e : Event) (m' : Machine) (out : list effect) :
  step m e = Some (m', out) → socket_move m e m'.
Proof.
  intros Hstep. destruct e as [fileId|q|q ok|t|k| |]; cbn [step] in Hstep.
  - unfold play_request in Hstep.
    destruct fileId as [f|];
      [|injection Hstep as <- _; apply socket_move_none; reflexivity].
    destruct (falsy (Some f));
      [injection Hstep as <- _; apply socket_move_none; reflexivity|].
    destruct (found m f) as [[| |d]|]; injection Hstep as <- _;
      [apply socket_move_cleanup|apply socket_move_cleanup|apply socket_move_cleanup|
       apply socket_move_none; reflexivity];
      cbn; first [apply socks_cleanupStream_true | apply cleanupStream_zmqSock].
  - unfold play_decoded in Hstep.
    destruct (plays m !! q) as [[f [smp|]|f smp|]|]; try discriminate;
      injection Hstep as <- _;
      [apply socket_move_open|apply socket_move_none]; reflexivity.
  - unfold play_connected in Hstep.
    destruct (plays m !! q) as [[f d|f smp|]|]; try discriminate.
    destruct ok; injection Hstep as <- _; apply socket_move_none; reflexivity.
  - unfold tick in Hstep.
    destruct (intervals m !! t) as [iv|] eqn:Eiv; [|discriminate].
    destruct (cleared iv) eqn:Ec; [discriminate|].
    destruct (playing (STATE m)) eqn:Epl; cbn [negb orb] in Hstep.
    2:{ injection Hstep as <- _.
        apply socket_move_cleanup; [reflexivity|apply cleanupStream_zmqSock]. }
    destruct (Nat.leb_spec (length (samples iv)) (index iv)) as [Hle|Hlt].
    { injection Hstep as <- _.
      apply socket_move_cleanup; [reflexivity|apply cleanupStream_zmqSock]. }
    destruct (zmqSock m) as [s|] eqn:Ez; injection Hstep as <- _.
    + apply (socket_move_send m t _ iv s); auto.
    + apply socket_move_none; reflexivity.
  - unfold send_done in Hstep.
    destruct (sends m !! k) as [tk|]; [|discriminate].
    destruct (settled tk); [discriminate|]. injection Hstep as <- _.
    apply socket_move_none; reflexivity.
  - injection Hstep as <- _.
    apply socket_move_cleanup; [reflexivity|apply cleanupStream_zmqSock].
  - injection Hstep as <- _. apply socket_move_none; reflexivity.
Qed.

Lemma socket_inv_step (m : Machine) (e : Event) (m' : Machine) (out : list effect) :
  socket_inv m → step m e = Some (m', out) → socket_inv m'.
Proof.
  intros [H1 H2] Hstep. unfold socket_inv.
  destruct (step_socket_move m e m' out Hstep)
    as [e m' Hs Hz|e m' Hs Hz|e m' Hs Hz|t m' iv s _ _ _ _ Hz0 Hz Hs]; rewrite Hs, Hz.
  - split; [exact H1|exact H2].
  - split; [|discriminate].
    intros s p Hp. apply closes_cleanupStream in Hp as (p0 & Hp0 & _ & ->).
    case_decide as Hd; [|exact (H1 s p0 Hp0)].
    destruct (H2 s Hd) as (p1 & Hp1 & Hc1). rewrite Hp0 in Hp1.
    injection Hp1 as ->. lia.
  - split.
    + intros s p Hp. apply lookup_app_Some in Hp as [Hp|[_ Hp]]; [exact (H1 s p Hp)|].
      apply list_lookup_singleton_Some in Hp as [_ <-]. cbn. lia.
    + intros s [= <-]. exists fresh_socket.
      rewrite lookup_app_r, Nat.sub_diag by lia. auto.
  - split.
    + intros s' p Hp. rewrite list_lookup_alter in Hp. case_decide; [|exact (H1 s' p Hp)].
      destruct (socks m !! s) as [p0|] eqn:E0; [|discriminate].
      injection Hp as <-. cbn. exact (H1 s p0 E0).
    + intros s' [= <-]. destruct (H2 s Hz0) as (p0 & Hp0 & Hc0).
      rewrite list_lookup_alter_eq, Hp0. eexists. split; [reflexivity|exact Hc0].
Qed.

Lemma socket_inv_boot (d : Disk) : socket_inv (boot d).
Proof.
  split.
  - intros s p Hp. cbn in Hp. rewrite lookup_nil in Hp. discriminate Hp.
  - intros s Hs. discriminate Hs.
Qed.

(** X1.  In every schedule, overlapping starts included, no socket is
    closed twice, the socket the global [zmqSock] holds was never closed,
    and a socket that was closed stays exactly as it is: nothing is ever
    handed to a closed socket. *)
Theorem closed_socket_is_left_alone (d : Disk) (es1 es2 : list Event)
        (m1 m2 : Machine) (out1 out2 : list effect) :
  run (boot d) es1 = Some (m1, out1) →
  run m1 es2 = Some (m2, out2) →
  (∀ s p, socks m1 !! s = Some p → closes p ≤ 1) ∧
  (∀ s, zmqSock m1 = Some s → ∃ p, socks m1 !! s = Some p ∧ closes p = 0) ∧
  (∀ s p, socks m1 !! s = Some p → closes p = 1 → socks m2 !! s = Some p).
Proof.
  intros Hrun1 Hrun2.
  pose proof (run_invariant socket_inv socket_inv_step es1 (boot d) m1 out1
                (socket_inv_boot d) Hrun1) as Hinv1.
  split; [exact (proj1 Hinv1)|]. split; [exact (proj2 Hinv1)|].
  intros s p Hp Hc.
  assert (Hkeep : ∀ m e m' out, socket_inv m ∧ socks m !! s = Some p →
                    step m e = Some (m', out) →
                    socket_inv m' ∧ socks m' !! s = Some p).
  { intros m e m' out [Hinv Hsp] Hstep.
    split; [exact (socket_inv_step m e m' out Hinv Hstep)|].
    assert (Hne : zmqSock m ≠ Some s).
    { intros Hz. destruct (proj2 Hinv s Hz) as (p0 & Hp0 & Hc0).
      rewrite Hsp in Hp0. injection Hp0 as ->. lia. }
    destruct (step_socket_move m e m' out Hstep)
      as [e m' Hs Hz|e m' Hs Hz|e m' Hs Hz|t m' iv s0 _ _ _ _ Hz0 Hz Hs]; rewrite Hs.
    - exact Hsp.
    - rewrite cleanupStream_socks. destruct (zmqSock m) as [s0|]; [|exact Hsp].
      rewrite list_lookup_alter_ne by congruence. exact Hsp.
    - apply lookup_app_l_Some. exact Hsp.
    - rewrite list_lookup_alter_ne by congruence. exact Hsp. }
  exact (proj2 (run_invariant _ Hkeep es2 m1 m2 out2 (conj Hinv1 Hp) Hrun2)).
Qed.

Lemma closed_socket_is_left_alone_witness :
  let es1 := start "a.wav" 0 ++ [Tick 0; ReqPause] in
  let es2 := [SendDone 0] ++ start "b.wav" 1 ++ [Tick 1; SendDone 1; Tick 1] in
  let m1 := after (boot demo_disk) es1 in
  let m2 := after m1 es2 in
  let p := {| sent := [[1; 2; 3]%Z]; closes := 1 |} in
  (∃ out, run (boot demo_disk) es1 = Some (m1, out)) ∧
  (∃ out, run m1 es2 = Some (m2, out)) ∧
  socks m1 !! 0 = Some p ∧
  socks m2 !! 0 = Some p ∧
  length (socks m2) = 2.
Proof.
  intros es1 es2 m1 m2 p.
  assert (Hrun1 : ∃ out, run (boot demo_disk) es1 = Some (m1, out)) by by_evaluation.
  assert (Hrun2 : ∃ out, run m1 es2 = Some (m2, out)) by by_evaluation.
  assert (Hp : socks m1 !! 0 = Some p) by by_evaluation.
  split; [exact Hrun1|]. split; [exact Hrun2|]. split; [exact Hp|].
  destruct Hrun1 as [out1 Hrun1]. destruct Hrun2 as [out2 Hrun2].
  destruct (closed_socket_is_left_alone demo_disk es1 es2 m1 m2 out1 out2 Hrun1 Hrun2)
    as (_ & _ & Hkeep).
  split; [exact (Hkeep 0 p Hp eq_refl)|by_evaluation].
Defined.

Lemma frame_inv_step (m : Machine) (e : Event) (m' : Machine) (out : list effect) :
  frame_inv m → step m e = Some (m', out) → frame_inv m'.
Proof.
  intros [H1 H2] Hstep.
  pose proof (step_advance m e m' out Hstep) as Hadv.
  assert (Hkeep : ∀ t smp i, cursors m !! t = Some (smp, i) →
                             ∃ i', cursors m' !! t = Some (smp, i')).
  { intros t smp i Ht.
    destruct (advance_monotone m e m' t smp i Hadv Ht) as (i' & Ht' & _). eauto. }
  assert (Hold : ∀ fr, (∃ t smp i k, cursors m !! t = Some (smp, i) ∧ fr = chunk smp k ∧
                                     chunkSize * k < length smp) →
                       ∃ t smp i k, cursors m' !! t = Some (smp, i) ∧ fr = chunk smp k ∧
                                    chunkSize * k < length smp).
  { intros fr (t & smp & i & k & Ht & Hfr & Hk).
    destruct (Hkeep t smp i Ht) as [i' Ht']. exists t, smp, i', k. auto. }
  split.
  - destruct Hadv as [e m' Hc _|e m' smp' Hc _|t' m' smp' i' n _ _ Hc _|k m' tk _ _ _ Hc];
      rewrite Hc.
    + exact H1.
    + intros t smp i Ht. apply lookup_app_Some in Ht as [Ht|[_ Ht]]; [exact (H1 t smp i Ht)|].
      apply list_lookup_singleton_Some in Ht as [_ [= <- <-]]. exists 0. lia.
    + exact H1.
    + intros t smp i Ht. rewrite list_lookup_alter in Ht. case_decide; [|exact (H1 t smp i Ht)].
      destruct (cursors m !! owner tk) as [[smp0 i0]|] eqn:E0; [|discriminate].
      cbn in Ht. injection Ht as <- <-.
      destruct (H1 (owner tk) smp0 i0 E0) as [k0 ->]. exists (S k0).
      rewrite Nat.mul_succ_r. reflexivity.
  - intros s p fr Hp Hfr. apply Hold.
    destruct (step_socket_move m e m' out Hstep)
      as [e m' Hs _|e m' Hs _|e m' Hs _|t m' iv s0 Hiv _ _ Hlt _ _ Hs]; rewrite Hs in Hp.
    + exact (H2 s p fr Hp Hfr).
    + apply closes_cleanupStream in Hp as (p0 & Hp0 & Hsent & _).
      rewrite Hsent in Hfr. exact (H2 s p0 fr Hp0 Hfr).
    + apply lookup_app_Some in Hp as [Hp|[_ Hp]]; [exact (H2 s p fr Hp Hfr)|].
      apply list_lookup_singleton_Some in Hp as [_ <-]. cbn in Hfr.
      apply elem_of_nil in Hfr. destruct Hfr.
    + rewrite list_lookup_alter in Hp. case_decide; [|exact (H2 s p fr Hp Hfr)].
      destruct (socks m !! s0) as [p0|] eqn:E0; [|discriminate].
      injection Hp as <-. cbn in Hfr. apply elem_of_app in Hfr as [Hfr|Hfr].
      * subst s0. exact (H2 s p0 fr E0 Hfr).
      * apply list_elem_of_singleton in Hfr as ->.
        pose proof (cursors_lookup m t iv Hiv) as Hc.
        destruct (H1 t _ _ Hc) as [k Hk].
        exists t, (samples iv), (index iv), k. split; [exact Hc|].
        rewrite Hk, subarray_chunk. split; [reflexivity|lia].
Qed.

Lemma frame_inv_boot (d : Disk) : frame_inv (boot d).
Proof.
  split.
  - intros t smp i Ht. cbn in Ht. rewrite lookup_nil in Ht. discriminate Ht.
  - intros s p fr Hp. cbn in Hp. rewrite lookup_nil in Hp. discriminate Hp.
Qed.

(** X2.  In every schedule, every frame any socket was ever handed is a
    piece of the samples of one of the sessions: for some [k], the samples
    from [1024 k] up to (not including) [1024 k + 1024], clipped at the end
    and never empty; so a message carries between 1 and 1024 samples. *)
Theorem every_frame_is_a_chunk (d : Disk) (es : list Event) (m : Machine)
        (out : list effect) (s : nat) (p : Publisher) (fr : list float32) :
  run (boot d) es = Some (m, out) →
  socks m !! s = Some p →
  fr ∈ sent p →
  0 < length fr ∧ length fr ≤ chunkSize ∧
  ∃ t iv k, intervals m !! t = Some iv ∧
            chunkSize * k < length (samples iv) ∧
            fr = take chunkSize (drop (chunkSize * k) (samples iv)).
Proof.
  intros Hrun Hp Hfr.
  pose proof (run_invariant frame_inv frame_inv_step es (boot d) m out
                (frame_inv_boot d) Hrun) as [_ H2].
  destruct (H2 s p fr Hp Hfr) as (t & smp & i & k & Hc & -> & Hk).
  destruct (cursors_lookup_inv m t smp i Hc) as (iv & Hiv & <- & _).
  rewrite length_chunk. pose proof chunkSize_pos.
  split; [lia|]. split; [lia|]. exists t, iv, k. auto.
Qed.

Lemma every_frame_is_a_chunk_witness :
  let es := start "a.wav" 0 ++ [Tick 0; Tick 0; SendDone 1] in
  let m := after (boot demo_disk) es in
  let p := {| sent := [[1; 2; 3]; [1; 2; 3]]%Z; closes := 0 |} in
  (∃ out, run (boot demo_disk) es = Some (m, out)) ∧
  socks m !! 0 = Some p ∧
  0 < length [1; 2; 3]%Z ∧ length [1; 2; 3]%Z ≤ chunkSize.
Proof.
  intros es m p.
  assert (Hrun : ∃ out, run (boot demo_disk) es = Some (m, out)) by by_evaluation.
  assert (Hp : socks m !! 0 = Some p) by by_evaluation.
  split; [exact Hrun|]. split; [exact Hp|].
  destruct Hrun as [out Hrun].
  assert (Hfr : [1; 2; 3]%Z ∈ sent p) by (apply list_elem_of_here).
  destruct (every_frame_is_a_chunk demo_disk es m out 0 p _ Hrun Hp Hfr) as (H1 & H2 & _).
  split; [exact H1|exact H2].
Defined.

Lemma quiet_step (m : Machine) (e : Event) (m' : Machine) (out : list effect) :
  accepts e = false →
  playing (STATE m) = false →
  step m e = Some (m', out) →
  playing (STATE m') = false ∧
  length (socks m) ≤ length (socks m') ∧
  ∀ s p', socks m' !! s = Some p' →
          sent p' = match socks m !! s with Some p => sent p | None => [] end.
Proof.
  intros Hacc Hpl Hstep. split.
  { destruct e as [fileId|q|q ok|t|k| |]; cbn [step] in Hstep.
    - unfold play_request in Hstep.
      destruct fileId as [f|]; [|injection Hstep as <- _; exact Hpl].
      destruct (falsy (Some f)); [injection Hstep as <- _; exact Hpl|].
      destruct (found m f) as [[| |d]|]; injection Hstep as <- _; cbn;
        rewrite ?cleanupStream_playing; exact Hpl.
    - unfold play_decoded in Hstep.
      destruct (plays m !! q) as [[f [smp|]|f smp|]|]; try discriminate;
        injection Hstep as <- _; exact Hpl.
    - unfold play_connected in Hstep.
      destruct (plays m !! q) as [[f d|f smp|]|]; try discriminate.
      destruct ok; [discriminate Hacc|]. injection Hstep as <- _. exact Hpl.
    - unfold tick in Hstep.
      destruct (intervals m !! t) as [iv|]; [|discriminate].
      destruct (cleared iv); [discriminate|].
      rewrite Hpl in Hstep. cbn [negb orb] in Hstep. injection Hstep as <- _.
      rewrite cleanupStream_playing. exact Hpl.
    - unfold send_done in Hstep.
      destruct (sends m !! k) as [tk|]; [|discriminate].
      destruct (settled tk); [discriminate|]. injection Hstep as <- _. exact Hpl.
    - injection Hstep as <- _. reflexivity.
    - injection Hstep as <- _. exact Hpl. }
  destruct (step_socket_move m e m' out Hstep)
    as [e m' Hs _|e m' Hs _|e m' Hs _|t m' iv s0 _ _ Hplay _ _ _ _]; [..|congruence];
    rewrite Hs.
  - split; [lia|]. intros s p' Hp'. rewrite Hp'. reflexivity.
  - split.
    { rewrite cleanupStream_socks. destruct (zmqSock m); rewrite ?length_alter; lia. }
    intros s p' Hp'. apply closes_cleanupStream in Hp' as (p0 & -> & -> & _). reflexivity.
  - split; [rewrite length_app; lia|].
    intros s p' Hp'. apply lookup_app_Some in Hp' as [Hp'|[Hlen Hp']].
    + rewrite Hp'. reflexivity.
    + apply list_lookup_singleton_Some in Hp' as [_ <-].
      rewrite (lookup_ge_None_2 _ _ Hlen). reflexivity.
Qed.

Lemma quiet_run (es : list Event) (m m' : Machine) (out : list effect) :
  forallb (λ e, negb (accepts e)) es = true →
  playing (STATE m) = false →
  run m es = Some (m', out) →
  playing (STATE m') = false ∧
  length (socks m) ≤ length (socks m') ∧
  ∀ s p', socks m' !! s = Some p' →
          sent p' = match socks m !! s with Some p => sent p | None => [] end.
Proof.
  revert m out. induction es as [|e es IH]; intros m out Hq Hpl Hrun.
  - injection Hrun as <- _. split; [exact Hpl|]. split; [lia|].
    intros s p' Hp'. rewrite Hp'. reflexivity.
  - cbn [forallb] in Hq. apply andb_prop in Hq as [Hq1 Hq2]. apply negb_true_iff in Hq1.
    apply run_cons_inv in Hrun as (m1 & out1 & out2 & E & E2 & _ & _).
    destruct (quiet_step m e m1 out1 Hq1 Hpl E) as (Hpl1 & Hlen1 & Hs1).
    destruct (IH m1 out2 Hq2 Hpl1 E2) as (Hpl2 & Hlen2 & Hs2).
    split; [exact Hpl2|]. split; [lia|].
    intros s p' Hp'. rewrite (Hs2 s p' Hp').
    destruct (socks m1 !! s) as [p1|] eqn:E1.
    + exact (Hs1 s p1 E1).
    + apply lookup_ge_None_1 in E1.
      rewrite (lookup_ge_None_2 (socks m) s) by lia. reflexivity.
Qed.

(** X3.  After a stop, and until a start is accepted, no frame leaves:
    whatever fires or resumes (ticks of any interval, suspended sends,
    starts that fail or stay suspended, further stops), [STATE.playing]
    stays false and every socket keeps exactly the frames it had been
    handed before the stop; sockets opened meanwhile are handed none. *)
Theorem no_frame_after_stop (m : Machine) (es : list Event) (m2 : Machine)
        (out : list effect) :
  forallb (λ e, negb (accepts e)) es = true →
  run m (ReqPause :: es) = Some (m2, out) →
  playing (STATE m2) = false ∧
  ∀ s p2, socks m2 !! s = Some p2 →
          sent p2 = match socks m !! s with Some p => sent p | None => [] end.
Proof.
  intros Hq Hrun.
  apply run_cons_inv in Hrun as (m1 & out1 & out2 & E & E2 & _ & _).
  cbn [step] in E. injection E as <- _.
  destruct (quiet_run es (pause m).1 m2 out2 Hq eq_refl E2) as (Hpl & _ & Hs).
  split; [exact Hpl|].
  intros s p2 Hp2. rewrite (Hs s p2 Hp2). cbn.
  destruct (socks (cleanupStream false m) !! s) as [p1|] eqn:E1.
  - apply closes_cleanupStream in E1 as (p0 & -> & -> & _). reflexivity.
  - apply lookup_ge_None_1 in E1.
    rewrite cleanupStream_socks in E1.
    rewrite (lookup_ge_None_2 (socks m) s); [reflexivity|].
    destruct (zmqSock m); rewrite ?length_alter in E1; exact E1.
Qed.

Lemma no_frame_after_stop_witness :
  let m := after (boot demo_disk)
             ([ReqPlay (Some "a.wav"); ReqPlay (Some "b.wav"); DecodeDone 0; DecodeDone 1;
               ConnectDone 0 true; ConnectDone 1 true; Tick 0; Tick 1]) in
  let es := [SendDone 0; Tick 0; SendDone 1; ReqPlay (Some "b.wav"); DecodeDone 2;
             ConnectDone 2 false; ReqPause; ReqStatus] in
  let m2 := after m (ReqPause :: es) in
  forallb (λ e, negb (accepts e)) es = true ∧
  (∃ out, run m (ReqPause :: es) = Some (m2, out)) ∧
  cleared <$> intervals m = [false; false] ∧
  sent <$> socks m = [[]; [[1; 2; 3]; [7]]%Z] ∧
  playing (STATE m2) = false ∧
  sent <$> socks m2 = [[]; [[1; 2; 3]; [7]]%Z; []].
Proof.
  intros m es m2.
  assert (Hq : forallb (λ e, negb (accepts e)) es = true) by reflexivity.
  assert (Hrun : ∃ out, run m (ReqPause :: es) = Some (m2, out)) by by_evaluation.
  split; [exact Hq|]. split; [exact Hrun|].
  split; [by_evaluation|]. split; [by_evaluation|].
  destruct Hrun as [out Hrun].
  destruct (no_frame_after_stop m es m2 out Hq Hrun) as [Hpl _].
  split; [exact Hpl|by_evaluation].
Defined.










(** ** The stand-alone sender *)

Lemma send_from_chunks (smp : list float32) (n k : nat) (sock : Publisher) :
  k + n = frame_count (length smp) →
  send_from smp (chunkSize * k) sock
  = {| sent := sent sock ++ (chunk smp <$> seq k n); closes := closes sock |}.
Proof.
  revert k sock. induction n as [|n IH]; intros k sock Hk.
  - destruct (frame_count_spec (length smp)) as [Hlo _].
    rewrite Nat.add_0_r in Hk. subst k. simp send_from.
    destruct (decide (chunkSize * frame_count (length smp) < length smp)) as [Hlt|Hge];
      [lia|].
    cbn [send_from_unfold_clause_1 seq fmap list_fmap]. rewrite app_nil_r.
    destruct sock; reflexivity.
  - destruct (frame_count_spec (length smp)) as [_ Hhi]. simp send_from.
    destruct (decide (chunkSize * k < length smp)) as [Hlt|Hge].
    + cbn [send_from_unfold_clause_1]. rewrite subarray_chunk.
      replace (chunkSize * k + chunkSize) with (chunkSize * S k)
        by (rewrite Nat.mul_succ_r; reflexivity).
      rewrite IH by lia. cbn [sent closes seq fmap list_fmap].
      rewrite <- app_assoc. reflexivity.
    + exfalso. unfold chunkSize in *. lia.
Qed.

(** X6.  The stand-alone sender script, run on a sample sequence of length
    [L], hands its socket exactly [ceil(L / 1024)] frames, in order the
    pieces of 1024 samples (the last one shorter when [L] is no multiple
    of 1024), whose concatenation is the samples; it never closes the
    socket.  These are the very frames a session of the server hands its
    socket when its sends keep up with the timer. *)
Theorem script_sends_the_chunks (smp : list float32) :
  sent (run_script smp) = chunk smp <$> seq 0 (frame_count (length smp)) ∧
  length (sent (run_script smp)) = frame_count (length smp) ∧
  concat (sent (run_script smp)) = smp ∧
  closes (run_script smp) = 0 ∧
  ∀ t s m, looping t s smp 0 m →
    ∃ mN, run m (frame_turns t (length (sends m)) (frame_count (length smp)))
          = Some (mN, []) ∧
          sent <$> socks mN !! s = Some (sent (run_script smp)).
Proof.
  assert (Hrun : run_script smp
                 = {| sent := chunk smp <$> seq 0 (frame_count (length smp));
                      closes := 0 |}).
  { unfold run_script.
    rewrite <- (Nat.mul_0_r chunkSize).
    rewrite (send_from_chunks smp (frame_count (length smp)) 0) by lia. reflexivity. }
  rewrite Hrun. cbn [sent closes].
  split; [reflexivity|]. split; [rewrite length_fmap, length_seq; reflexivity|].
  split.
  { rewrite concat_chunks. apply take_ge. apply frame_count_spec. }
  split; [reflexivity|].
  intros t s m H0.
  destruct (frame_turns_looping t s smp m (frame_count (length smp)) H0)
    as (mN & HrunN & (_ & _ & _ & _ & Hs & _) & _); [reflexivity|].
  exists mN. split; [exact HrunN|]. rewrite Hs. reflexivity.
Qed.

(** ** Stored file names *)

Lemma chars_append (a b : string) : chars (String.append a b) = chars a ++ chars b.
Proof.
  induction a as [|c a IH]; [reflexivity|].
  change (c :: chars (String.append a b) = c :: (chars a ++ chars b)).
  f_equal. exact IH.
Qed.

Lemma chars_inj (a b : string) : chars a = chars b → a = b.
Proof.
  intros H. rewrite <- (String.string_of_list_ascii_of_string a),
    <- (String.string_of_list_ascii_of_string b), H. reflexivity.
Qed.

Lemma chars_sanitize (s : string) : chars (sanitize s) = sanitize_char <$> chars s.
Proof. induction s as [|c s IH]; cbn; [reflexivity|f_equal; exact IH]. Qed.

Lemma safe_sanitize_char (c : ascii) : safe_char (sanitize_char c) = true.
Proof. unfold sanitize_char. destruct (safe_char c) eqn:E; [exact E|reflexivity]. Qed.

Lemma sanitize_char_id (c : ascii) : sanitize_char c = c ↔ safe_char c = true.
Proof.
  unfold sanitize_char. destruct (safe_char c) eqn:E; split; intros H; try reflexivity.
  - rewrite <- H in E. discriminate E.
  - discriminate H.
Qed.

Lemma sanitize_safe (s : string) :
  Forall (λ c, safe_char c = true) (chars (sanitize s)).
Proof.
  rewrite chars_sanitize. apply Forall_fmap, Forall_forall.
  intros c _. apply safe_sanitize_char.
Qed.

(** X7.  The file-name filter keeps the length of a name, leaves only
    characters of [[a-zA-Z0-9_.-]] (each character is kept if it is one of
    them and becomes an underscore otherwise), changes nothing in a name
    that is already clean, and only in such a name; filtering twice is
    filtering once. *)
Theorem sanitize_cleans (s : string) :
  String.length (sanitize s) = String.length s ∧
  chars (sanitize s) = (λ c, if safe_char c then c else "_"%char) <$> chars s ∧
  Forall (λ c, safe_char c = true) (chars (sanitize s)) ∧
  (sanitize s = s ↔ Forall (λ c, safe_char c = true) (chars s)) ∧
  sanitize (sanitize s) = sanitize s.
Proof.
  split; [induction s as [|c s IH]; cbn; congruence|].
  split; [exact (chars_sanitize s)|].
  pose proof sanitize_safe as Hsafe.
  assert (Hid : ∀ s, sanitize s = s ↔ Forall (λ c, safe_char c = true) (chars s)).
  { intros s'. induction s' as [|c s' IH]; cbn.
    - split; [intros _; constructor|reflexivity].
    - split.
      + intros [= Hc Hs]. constructor; [apply sanitize_char_id; exact Hc|].
        apply IH. exact Hs.
      + intros H. apply Forall_cons in H as [Hc Hs]. rewrite Hc.
        f_equal. apply IH. exact Hs. }
  split; [apply Hsafe|]. split; [apply Hid|]. apply Hid, Hsafe.
Qed.

Lemma decimal_digits (n : N) :
  Forall (λ c, (48 <=? nat_of_ascii c) && (nat_of_ascii c <=? 57) = true)
         (chars (decimal n)) ∧
  decimal n ≠ "".
Proof.
  unfold decimal. split.
  - induction (N.to_uint n) as [|d IH|d IH|d IH|d IH|d IH|d IH|d IH|d IH|d IH|d IH]; cbn;
      [constructor|constructor; [reflexivity|exact IH]..].
  - destruct n as [|p]; [discriminate|]. cbn.
    pose proof (DecimalPos.Unsigned.to_uint_nonnil p) as Hnn.
    destruct (Pos.to_uint p); [contradiction|discriminate..].
Qed.

Lemma decimal_inj (n n' : N) : decimal n = decimal n' → n = n'.
Proof.
  unfold decimal. intros H. apply DecimalN.Unsigned.to_uint_inj.
  assert (H' : Some (N.to_uint n) = Some (N.to_uint n'))
    by (rewrite <- !NilEmpty.usu, H; reflexivity).
  injection H' as H'. exact H'.
Qed.

Lemma digit_safe (c : ascii) :
  (48 <=? nat_of_ascii c) && (nat_of_ascii c <=? 57) = true →
  safe_char c = true ∧ c ≠ "_"%char.
Proof.
  intros H. split.
  - unfold safe_char. cbn zeta. rewrite H. rewrite orb_true_r. reflexivity.
  - intros ->. discriminate H.
Qed.

Lemma split_at_first (x : ascii) (l1 l2 r1 r2 : list ascii) :
  Forall (λ c, c ≠ x) l1 → Forall (λ c, c ≠ x) l2 →
  l1 ++ x :: r1 = l2 ++ x :: r2 → l1 = l2 ∧ r1 = r2.
Proof.
  revert l2. induction l1 as [|a l1 IH]; intros l2 H1 H2 Heq.
  - destruct l2 as [|b l2]; cbn in Heq.
    + injection Heq as ->. auto.
    + injection Heq as <- _. apply Forall_cons in H2 as [H2 _]. contradiction.
  - apply Forall_cons in H1 as [Ha H1]. destruct l2 as [|b l2]; cbn in Heq.
    + injection Heq as -> _. contradiction.
    + injection Heq as -> Heq. apply Forall_cons in H2 as [_ H2].
      destruct (IH l2 H1 H2 Heq) as [-> ->]. auto.
Qed.

Lemma chars_filename (now : N) (orig : string) :
  chars (filename now orig) = chars (decimal now) ++ "_"%char :: chars (sanitize orig).
Proof. unfold filename. rewrite chars_append. reflexivity. Qed.

Lemma filename_head (now : N) (orig : string) :
  ∃ c rest, filename now orig = String c rest ∧
            (48 <=? nat_of_ascii c) && (nat_of_ascii c <=? 57) = true.
Proof.
  destruct (decimal_digits now) as [Hdig Hne].
  unfold filename. destruct (decimal now) as [|c rest] eqn:E; [contradiction|].
  exists c, (String.append rest (String "_" (sanitize orig))). split; [reflexivity|].
  cbn in Hdig. apply Forall_cons in Hdig as [Hc _]. exact Hc.
Qed.

Lemma filename_truthy (now : N) (orig : string) :
  falsy (Some (filename now orig)) = false.
Proof. destruct (filename_head now orig) as (c & rest & -> & _). reflexivity. Qed.

(** X8.  The name an upload is stored under is a single, harmless path
    component: it consists of characters of [[a-zA-Z0-9_.-]] only (so no
    slash, backslash or NUL), it is not empty (so [/api/play] does not
    take it for a missing fileId), and it is neither [.] nor [..].  Two
    uploads get the same stored name only if they arrive in the same
    millisecond with names that filter to the same string. *)
Theorem filename_is_a_safe_component (now : N) (orig : string) :
  Forall (λ c, safe_char c = true) (chars (filename now orig)) ∧
  ("/"%char ∉ chars (filename now orig)) ∧
  ("\"%char ∉ chars (filename now orig)) ∧
  ("000"%char ∉ chars (filename now orig)) ∧
  falsy (Some (filename now orig)) = false ∧
  filename now orig ≠ "." ∧ filename now orig ≠ ".." ∧
  ∀ now' orig', filename now orig = filename now' orig' →
                now = now' ∧ sanitize orig = sanitize orig'.
Proof.
  destruct (decimal_digits now) as [Hdig Hne].
  assert (Hsafe : Forall (λ c, safe_char c = true) (chars (filename now orig))).
  { rewrite chars_filename. apply Forall_app. split.
    - eapply Forall_impl; [exact Hdig|]. intros c Hc. apply (digit_safe c Hc).
    - constructor; [reflexivity|]. apply sanitize_safe. }
  assert (Hnot : ∀ c, safe_char c = false → c ∉ chars (filename now orig)).
  { intros c Hc Hin. rewrite Forall_forall in Hsafe. rewrite (Hsafe c Hin) in Hc.
    discriminate Hc. }
  destruct (filename_head now orig) as (c & rest & Hfn & Hc).
  split; [exact Hsafe|]. split; [apply Hnot; reflexivity|].
  split; [apply Hnot; reflexivity|]. split; [apply Hnot; reflexivity|].
  split; [rewrite Hfn; reflexivity|].
  split; [rewrite Hfn; intros [= -> _]; discriminate Hc|].
  split; [rewrite Hfn; intros [= -> _]; discriminate Hc|].
  intros now' orig' Heq. apply (f_equal String.list_ascii_of_string) in Heq.
  rewrite !chars_filename in Heq.
  assert (Hd : ∀ n, Forall (λ c, c ≠ "_"%char) (chars (decimal n))).
  { intros n. eapply Forall_impl; [exact (proj1 (decimal_digits n))|].
    intros a Ha. apply (digit_safe a Ha). }
  destruct (split_at_first _ _ _ _ _ (Hd now) (Hd now') Heq) as [Hn Hs].
  split; [apply decimal_inj, chars_inj, Hn|apply chars_inj, Hs].
Qed.

Lemma eqb_sanitize_char (c x : ascii) :
  safe_char x = true → x ≠ "_"%char →
  Ascii.eqb (sanitize_char c) x = Ascii.eqb c x.
Proof.
  intros Hx Hne. unfold sanitize_char. destruct (safe_char c) eqn:Ec; [reflexivity|].
  destruct (Ascii.eqb_spec "_"%char x) as [H|_]; [congruence|].
  destruct (Ascii.eqb_spec c x) as [->|_]; [congruence|reflexivity].
Qed.

Lemma is_wav_sanitize (s : string) : is_wav (sanitize s) = is_wav s.
Proof.
  unfold is_wav. rewrite chars_sanitize, <- fmap_reverse.
  destruct (reverse (chars s)) as [|v [|a [|w [|dot r]]]]; try reflexivity.
  cbn [fmap list_fmap].
  rewrite !eqb_sanitize_char by (reflexivity || discriminate). reflexivity.
Qed.

Lemma is_wav_decimal_prefix (now : N) (s : string) :
  is_wav (String.append (decimal now) (String "_" s)) = is_wav s.
Proof.
  unfold is_wav. rewrite chars_append. cbn [chars String.list_ascii_of_string].
  rewrite reverse_app, reverse_cons, <- app_assoc. cbn [app].
  destruct (reverse (chars s)) as [|v [|a [|w [|dot r]]]]; cbn [app].
  - destruct (reverse (chars (decimal now))) as [|? [|? [|? ?]]]; cbn;
      rewrite ?andb_false_r; reflexivity.
  - destruct (reverse (chars (decimal now))) as [|? [|? ?]]; cbn;
      rewrite ?andb_false_r; reflexivity.
  - destruct (reverse (chars (decimal now))) as [|? ?]; cbn;
      rewrite ?andb_false_r; reflexivity.
  - reflexivity.
  - reflexivity.
Qed.

(** X9.  Storing an upload keeps its extension: the stored name ends in
    [.wav] (in any letter case) exactly when the name the client gave
    does.  So [/api/files] lists an upload if and only if it was sent
    under a [.wav] name. *)
Theorem filename_keeps_wav (now : N) (orig : string) :
  is_wav (filename now orig) = is_wav orig.
Proof. unfold filename. rewrite is_wav_decimal_prefix. apply is_wav_sanitize. Qed.

(** ** The file list *)

Lemma StronglySorted_lookup {A} (R : A → A → Prop) (l : list A) (i j : nat) (x y : A) :
  StronglySorted R l → i < j → l !! i = Some x → l !! j = Some y → R x y.
Proof.
  intros Hs. revert i j. induction Hs as [|a l Hs IH Hall]; intros i j Hij Hi Hj.
  - rewrite lookup_nil in Hi. discriminate Hi.
  - destruct j as [|j]; [lia|]. cbn in Hj. destruct i as [|i]; cbn in Hi.
    + injection Hi as <-. rewrite List.Forall_forall in Hall.
      apply Hall, list_elem_of_In, list_elem_of_lookup. eauto.
    + apply (IH i j); [lia|assumption..].
Qed.

Lemma entry_inj (f g : string) : entry f = entry g → f = g.
Proof. intros [= H]. exact H. Qed.

(** The name an upload is stored under is a plain name. *)
Lemma filename_plain (now : N) (orig : string) : plain (filename now orig) = true.
Proof.
  destruct (filename_head now orig) as (c & rest & Hfn & Hc).
  unfold plain. rewrite !andb_true_iff. split; [split; [split|]|].
  - rewrite Hfn. reflexivity.
  - rewrite Hfn. apply negb_true_iff, String.eqb_neq. intros [= -> _]. discriminate Hc.
  - rewrite Hfn. apply negb_true_iff, String.eqb_neq. intros [= -> _]. discriminate Hc.
  - apply forallb_forall. intros a Ha. apply negb_true_iff.
    destruct (Ascii.eqb_spec a "/") as [->|_]; [|reflexivity].
    apply list_elem_of_In in Ha. rewrite chars_filename in Ha.
    apply elem_of_app in Ha as [Ha|Ha].
    + destruct (decimal_digits now) as [Hdig _]. rewrite Forall_forall in Hdig.
      discriminate (Hdig _ Ha).
    + apply elem_of_cons in Ha as [Ha|Ha]; [discriminate Ha|].
      pose proof (sanitize_safe orig) as Hsafe. rewrite Forall_forall in Hsafe.
      discriminate (Hsafe _ Ha).
Qed.

(** Where an upload goes, and what a start finds there. *)
Lemma store_filename (now : N) (orig : string) (fl : file) (d : Disk) :
  store (filename now orig) fl d
  = {| dirname := dirname d;
       entries := <[UPLOAD_DIR d ++ [filename now orig] := fl]> (entries d) |} ∧
  resolve (store (filename now orig) fl d) (filename now orig) = Some fl.
Proof.
  assert (Hs : store (filename now orig) fl d
               = {| dirname := dirname d;
                    entries := <[UPLOAD_DIR d ++ [filename now orig] := fl]> (entries d) |}).
  { unfold store. rewrite (path_join_plain _ _ (filename_plain now orig)). reflexivity. }
  split; [exact Hs|].
  rewrite (resolve_plain _ _ (filename_plain now orig)), Hs.
  unfold UPLOAD_DIR. cbn [dirname entries]. apply lookup_insert_eq.
Qed.

Lemma elem_of_list_files (localeCompare : string → string → Z) (names : list string)
      (j : json) :
  j ∈ list_files localeCompare names ↔ ∃ f, f ∈ names ∧ is_wav f = true ∧ j = entry f.
Proof.
  unfold list_files. rewrite merge_sort_Permutation, list_elem_of_fmap. split.
  - intros (f & -> & Hin). apply list_elem_of_filter in Hin as [Hw Hin]. eauto.
  - intros (f & Hin & Hw & ->). exists f. split; [reflexivity|].
    apply list_elem_of_filter. auto.
Qed.

(** X10.  [/api/files] answers with one entry [{id: f, name: f}] for each
    directory entry whose name ends in [.wav] (in any letter case), and
    with nothing else: the answer is a rearrangement of those entries.
    When the host's [localeCompare] is a consistent comparator, the
    entries come in descending order of their ids: of two entries, the
    later one never compares greater than the earlier one. *)
Theorem list_files_lists_the_wavs (localeCompare : string → string → Z)
        (names : list string) :
  list_files localeCompare names ≡ₚ entry <$> filter (λ f, is_wav f = true) names ∧
  (∀ j, j ∈ list_files localeCompare names ↔
        ∃ f, f ∈ names ∧ is_wav f = true ∧ j = entry f) ∧
  length (list_files localeCompare names) ≤ length names ∧
  ((∀ a b, (localeCompare a b ≤ 0)%Z ∨ (localeCompare b a ≤ 0)%Z) →
   (∀ a b c, (localeCompare a b ≤ 0)%Z → (localeCompare b c ≤ 0)%Z →
             (localeCompare a c ≤ 0)%Z) →
   ∀ i j x y, i < j →
     list_files localeCompare names !! i = Some x →
     list_files localeCompare names !! j = Some y →
     (localeCompare (id_of y) (id_of x) ≤ 0)%Z).
Proof.
  assert (Hperm : list_files localeCompare names
                  ≡ₚ entry <$> filter (λ f, is_wav f = true) names)
    by apply merge_sort_Permutation.
  split; [exact Hperm|]. split.
  { intros j. apply elem_of_list_files. }
  split.
  { rewrite Hperm, length_fmap. apply length_filter. }
  intros Htot Htrans i j x y Hij Hx Hy.
  assert (HT : Total (before localeCompare)).
  { intros a b. unfold before. destruct (Htot (id_of b) (id_of a)); auto. }
  assert (HTr : Transitive (before localeCompare)).
  { intros a b c Hab Hbc. unfold before in *. exact (Htrans _ _ _ Hbc Hab). }
  exact (StronglySorted_lookup (before localeCompare) _ i j x y
           (StronglySorted_merge_sort (before localeCompare) _) Hij Hx Hy).
Qed.

(** ** Uploads and observers *)

(** X11.  An upload that carries a file is stored under its filtered,
    time-stamped name and answered with that name as [id]; the playback
    process is otherwise untouched.  From then on the list of files shows
    the id if and only if the client's name ended in [.wav], and a start
    with the id is never answered 400 or 404: its handler tears the
    current stream down and suspends at the decode of what was
    uploaded. *)
Theorem upload_then_play (localeCompare : string → string → Z) (sv : Server)
        (orig : string) (decoded : option (list float32)) (now : N) :
  let fid := filename now orig in
  ∃ sv1,
    sstep sv (Upload (Some (orig, decoded)) now)
    = Some (sv1, [Broadcast files_updated;
                  Respond 200 (JObj [("id", JStr fid); ("name", JStr orig)])]) ∧
    disk (core sv1)
    = {| dirname := dirname (disk (core sv));
         entries := <[UPLOAD_DIR (disk (core sv)) ++ [fid] := Readable decoded]>
                      (entries (disk (core sv))) |} ∧
    with_disk (disk (core sv)) (core sv1) = core sv ∧
    (entry fid ∈ list_files localeCompare (directory (core sv1)) ↔ is_wav orig = true) ∧
    step (core sv1) (ReqPlay (Some fid))
    = Some (with_plays (plays (core sv) ++ [AwaitDecode fid decoded])
                       (cleanupStream true (core sv1)), []).
Proof.
  intros fid.
  destruct (store_filename now orig (Readable decoded) (disk (core sv))) as [Hst Hres].
  fold fid in Hst, Hres.
  set (m1 := with_disk (store fid (Readable decoded) (disk (core sv))) (core sv)).
  exists {| core := m1; clients := broadcast files_updated (clients sv) |}.
  split; [reflexivity|]. split; [exact Hst|].
  split; [destruct sv as [[] ?]; reflexivity|].
  split.
  { assert (Hkeep : is_wav (filename now orig) = is_wav orig).
    { unfold filename. rewrite is_wav_decimal_prefix. apply is_wav_sanitize. }
    rewrite elem_of_list_files. unfold fid. split.
    - intros (f & _ & Hw & Hf). apply entry_inj in Hf. rewrite <- Hf in Hw.
      rewrite Hkeep in Hw. exact Hw.
    - intros Hw. exists (filename now orig).
      split; [|split; [rewrite Hkeep; exact Hw|reflexivity]].
      apply directory_spec. cbn [core]. unfold m1. cbn [disk with_disk]. rewrite Hst.
      unfold UPLOAD_DIR. cbn [dirname entries]. rewrite lookup_insert_eq. eauto. }
  cbn [core step]. unfold play_request.
  pose proof (filename_truthy now orig) as Hfalsy.
  fold fid in Hfalsy. rewrite Hfalsy.
  assert (Hd : found m1 fid = Some (Readable decoded)) by exact Hres.
  rewrite Hd, cleanupStream_plays. reflexivity.
Qed.

Lemma broadcast_lookup (msg : json) (cs : list Client) (i : nat) :
  broadcast msg cs !! i = receive [msg] <$> cs !! i.
Proof. unfold broadcast. rewrite list_lookup_fmap. reflexivity. Qed.

Lemma receive_app (a b : list json) (c : Client) :
  receive b (receive a c) = receive (a ++ b) c.
Proof.
  unfold receive. destruct (readyState c =? 1) eqn:E; cbn; [|rewrite E; reflexivity].
  rewrite E, app_assoc. reflexivity.
Qed.

Lemma receive_nil (c : Client) : receive [] c = c.
Proof.
  unfold receive. destruct (readyState c =? 1); [|reflexivity].
  rewrite app_nil_r. destruct c; reflexivity.
Qed.

Lemma deliver_lookup (msgs : list json) (cs : list Client) (i : nat) :
  foldl (λ cs msg, broadcast msg cs) cs msgs !! i = receive msgs <$> cs !! i.
Proof.
  revert cs. induction msgs as [|msg msgs IH]; intros cs; cbn [foldl].
  - destruct (cs !! i) as [c|]; cbn; [rewrite receive_nil|]; reflexivity.
  - rewrite IH, broadcast_lookup. destruct (cs !! i) as [c|]; cbn; [|reflexivity].
    rewrite receive_app. reflexivity.
Qed.

Lemma sstep_client (sv : Server) (e : ServerEvent) (sv' : Server) (out : list effect)
      (i : nat) (c : Client) :
  sstep sv e = Some (sv', out) →
  touches i e = false →
  clients sv !! i = Some c →
  clients sv' !! i = Some (receive (broadcasts out) c).
Proof.
  intros Hstep Ht Hc. destruct e as [e|part now| |j st]; cbn [sstep] in Hstep.
  - destruct (step (core sv) e) as [[m' out']|]; [|discriminate].
    injection Hstep as <- <-. cbn. rewrite deliver_lookup, Hc. reflexivity.
  - unfold upload_audio in Hstep. destruct part as [[orig dec]|]; injection Hstep as <- <-; cbn.
    + rewrite broadcast_lookup, Hc. reflexivity.
    + rewrite receive_nil. exact Hc.
  - injection Hstep as <- <-. cbn. rewrite receive_nil.
    apply lookup_app_l_Some. exact Hc.
  - injection Hstep as <- <-. cbn in Ht |- *. rewrite receive_nil.
    rewrite list_lookup_alter_ne; [exact Hc|].
    intros ->. rewrite Nat.eqb_refl in Ht. discriminate Ht.
Qed.

Lemma broadcasts_app (a b : list effect) : broadcasts (a ++ b) = broadcasts a ++ broadcasts b.
Proof. unfold broadcasts. apply omap_app. Qed.

Lemma srun_cons_inv (sv sv2 : Server) (e : ServerEvent) (rest : list ServerEvent)
      (out : list effect) :
  srun sv (e :: rest) = Some (sv2, out) →
  ∃ sv1 out1 out2, sstep sv e = Some (sv1, out1) ∧ srun sv1 rest = Some (sv2, out2) ∧
                   out = out1 ++ out2.
Proof.
  cbn [srun]. destruct (sstep sv e) as [[sv1 out1]|] eqn:Es; [|discriminate].
  destruct (exits out1 && negb (bool_decide (rest = []))); [discriminate|].
  destruct (srun sv1 rest) as [[sv2' out2]|] eqn:Er; [|discriminate].
  intros [= <- <-]. exists sv1, out1, out2. auto.
Qed.

(** X12.  An observer whose socket stays open receives every broadcast of
    every turn (status changes and files-updated alike), each exactly
    once and in the order they were made, whatever else happens; an
    observer whose socket is not open receives none of them. *)
Theorem observer_receives_the_broadcasts (es : list ServerEvent) (sv sv' : Server)
        (out : list effect) (i : nat) (c : Client) :
  srun sv es = Some (sv', out) →
  forallb (λ e, negb (touches i e)) es = true →
  clients sv !! i = Some c →
  clients sv' !! i
  = Some (if readyState c =? 1
          then {| readyState := 1; inbox := inbox c ++ broadcasts out |}
          else c).
Proof.
  intros Hrun Hq Hc.
  enough (H : clients sv' !! i = Some (receive (broadcasts out) c)).
  { rewrite H. unfold receive. destruct (Nat.eqb_spec (readyState c) 1) as [->|_]; reflexivity. }
  revert sv out c Hrun Hq Hc. induction es as [|e es IH]; intros sv out c Hrun Hq Hc.
  - injection Hrun as <- <-. rewrite receive_nil. exact Hc.
  - cbn [forallb] in Hq. apply andb_prop in Hq as [Hq1 Hq2]. apply negb_true_iff in Hq1.
    apply srun_cons_inv in Hrun as (sv1 & out1 & out2 & E & E2 & ->).
    rewrite (IH sv1 out2 _ E2 Hq2 (sstep_client sv e sv1 out1 i c E Hq1 Hc)).
    rewrite receive_app, broadcasts_app. reflexivity.
Qed.

Lemma observer_receives_the_broadcasts_witness :
  let sv := {| core := boot demo_disk; clients := [] |} in
  let es := [WsConnect; WsConnect; WsReady 1 3;
             Upload (Some ("x.wav", Some [5%Z])) 17;
             Core (ReqPlay (Some "17_x.wav")); Core (DecodeDone 0);
             Core (ConnectDone 0 true); Core (Tick 0); Core (SendDone 0);
             Core (Tick 0)] in
  let idle := {| playing := false; currentFile := None; bytesSent := 0 |} in
  (∃ sv1 sv2 out, srun sv [WsConnect; WsConnect] = Some (sv1, []) ∧
     srun sv1 (drop 2 es) = Some (sv2, out) ∧
     clients sv1 !! 0 = Some {| readyState := 1; inbox := [welcome; snapshot idle] |} ∧
     clients sv2 !! 0
     = Some {| readyState := 1;
               inbox := [welcome; snapshot idle; files_updated;
                         JObj [("type", JStr "status"); ("playing", JBool true);
                               ("currentFile", JStr "17_x.wav")];
                         status_stopped] |} ∧
     clients sv2 !! 1 = Some {| readyState := 3; inbox := [welcome; snapshot idle] |}).
Proof.
  intros sv es idle.
  set (sv1 := connection (connection sv)).
  assert (Hrun2 : ∃ sv2 out, srun sv1 (drop 2 es) = Some (sv2, out) ∧
                             broadcasts out = [files_updated;
                               JObj [("type", JStr "status"); ("playing", JBool true);
                                     ("currentFile", JStr "17_x.wav")];
                               status_stopped] ∧
                             clients sv2 !! 1
                             = Some {| readyState := 3; inbox := [welcome; snapshot idle] |}).
  { vm_compute. eexists _, _. split; [reflexivity|]. split; reflexivity. }
  destruct Hrun2 as (sv2 & out & Hrun2 & Hb & H1).
  assert (Hc : clients sv1 !! 0 = Some {| readyState := 1; inbox := [welcome; snapshot idle] |})
    by reflexivity.
  exists sv1, sv2, out. split; [reflexivity|]. split; [exact Hrun2|]. split; [exact Hc|].
  split; [|exact H1].
  rewrite (observer_receives_the_broadcasts (drop 2 es) sv1 sv2 out 0 _ Hrun2 eq_refl Hc).
  cbn. rewrite Hb. reflexivity.
Defined.

(** X13.  When a session ends by itself, the observers are told different
    things: those connected are sent [{type: status, playing: false}],
    while one that connects right afterwards is sent a status that still
    says playing true, with the file that has finished. *)
Theorem observers_disagree_after_finish (sv : Server) (t : nat) (iv : Interval)
        (i : nat) (c : Client) :
  intervals (core sv) !! t = Some iv →
  cleared iv = false →
  playing (STATE (core sv)) = true →
  length (samples iv) ≤ index iv →
  clients sv !! i = Some c →
  readyState c = 1 →
  ∃ sv2,
    srun sv [Core (Tick t); WsConnect] = Some (sv2, [Broadcast status_stopped]) ∧
    clients sv2 !! i = Some {| readyState := 1; inbox := inbox c ++ [status_stopped] |} ∧
    clients sv2 !! length (clients sv)
    = Some {| readyState := 1;
              inbox := [welcome;
                        JObj [("type", JStr "status"); ("playing", JBool true);
                              ("currentFile",
                               json_of_file (currentFile (STATE (core sv))))]] |}.
Proof.
  intros Hiv Hcl Hpl Hle Hc Hrs.
  pose proof (tick_stops (core sv) t iv Hiv Hcl (or_intror Hle)) as Hstep.
  pose proof (cleanupStream_STATE (core sv)) as HS.
  set (m' := cleanupStream false (core sv)) in *.
  set (sv1 := {| core := m'; clients := broadcast status_stopped (clients sv) |}).
  assert (Hs1 : sstep sv (Core (Tick t)) = Some (sv1, [Broadcast status_stopped])).
  { cbn [sstep]. rewrite Hstep. reflexivity. }
  exists (connection sv1). split.
  { cbn [srun]. rewrite Hs1. reflexivity. }
  assert (Hlen : length (clients sv1) = length (clients sv)).
  { unfold sv1, broadcast. cbn. apply length_fmap. }
  split.
  - cbn. apply lookup_app_l_Some. rewrite broadcast_lookup, Hc. cbn.
    unfold receive. rewrite Hrs. reflexivity.
  - cbn [connection clients]. rewrite <- Hlen.
    rewrite lookup_app_r, Nat.sub_diag by lia. cbn [lookup list_lookup core sv1].
    unfold snapshot. rewrite HS, Hpl. reflexivity.
Qed.

Lemma observers_disagree_after_finish_witness :
  let sv := {| core := after (boot demo_disk)
                         (start "b.wav" 0 ++ frame_turn 0 (boot demo_disk));
               clients := [{| readyState := 1; inbox := [] |}] |} in
  let iv := {| samples := [7%Z]; index := chunkSize; cleared := false |} in
  intervals (core sv) !! 0 = Some iv ∧ playing (STATE (core sv)) = true ∧
  length (samples iv) ≤ index iv ∧
  ∃ sv2,
    srun sv [Core (Tick 0); WsConnect] = Some (sv2, [Broadcast status_stopped]) ∧
    inbox <$> clients sv2
    = [[status_stopped];
       [welcome; JObj [("type", JStr "status"); ("playing", JBool true);
                       ("currentFile", JStr "b.wav")]]].
Proof.
  intros sv iv.
  assert (Hiv : intervals (core sv) !! 0 = Some iv) by by_evaluation.
  assert (Hpl : playing (STATE (core sv)) = true) by by_evaluation.
  assert (Hle : length (samples iv) ≤ index iv)
    by (unfold iv, chunkSize; cbn [samples index length]; lia).
  split; [exact Hiv|]. split; [exact Hpl|]. split; [exact Hle|].
  destruct (observers_disagree_after_finish sv 0 iv 0 {| readyState := 1; inbox := [] |}
              Hiv eq_refl Hpl Hle eq_refl eq_refl) as (sv2 & Hrun & _).
  exists sv2. split; [exact Hrun|].
  assert (Hsv2 : Some (sv2, [Broadcast status_stopped])
                 = Some (connection
                           {| core := cleanupStream false (core sv);
                              clients := broadcast status_stopped (clients sv) |},
                         [Broadcast status_stopped])).
  { rewrite <- Hrun. by_evaluation. }
  injection Hsv2 as ->. by_evaluation.
Defined.

(** ** From upload to the last frame *)

Lemma srun_core (es : list Event) (sv : Server) :
  srun sv (Core <$> es) =
  match run (core sv) es with
  | Some (m', out) =>
      Some ({| core := m';
               clients := foldl (λ cs msg, broadcast msg cs) (clients sv) (broadcasts out) |},
            out)
  | None => None
  end.
Proof.
  revert sv. induction es as [|e es IH]; intros sv; cbn [fmap list_fmap srun run].
  - destruct sv; reflexivity.
  - cbn [sstep]. destruct (step (core sv) e) as [[m1 out1]|]; [|reflexivity].
    assert (Hnil : bool_decide (Core <$> es = []) = bool_decide (es = [])).
    { destruct es; reflexivity. }
    change (list_fmap Event ServerEvent Core es) with (Core <$> es).
    rewrite Hnil.
    destruct (exits out1 && negb (bool_decide (es = []))); [reflexivity|].
    rewrite IH. cbn [core clients].
    destruct (run m1 es) as [[m2 out2]|]; [|reflexivity].
    rewrite broadcasts_app, foldl_app. reflexivity.
Qed.

Lemma cleanupStream_boot (r : bool) (d d' : Disk) :
  cleanupStream r (with_disk d' (boot d)) = with_disk d' (boot d).
Proof. destruct r; with_strategy transparent [cleanupStream] reflexivity. Qed.

(** X14.  On a freshly started server: a file is uploaded, a start with
    the id of the answer is accepted, every send is fulfilled before the
    next tick, and the interval fires once more after the last frame.
    Then the socket was handed the uploaded samples, cut in frames of 1024
    in order, and was closed once; [bytesSent] is four times the number of
    samples; no timer and no socket remain; every observer whose socket
    is open was sent files-updated, then playing true with the id, then
    playing false, and nothing else; and [STATE.playing] is still true. *)
Theorem upload_play_stream_finish (d : Disk) (cs : list Client)
        (orig : string) (smp : list float32) (now : N) :
  let fid := filename now orig in
  let n := frame_count (length smp) in
  let started := JObj [("type", JStr "status"); ("playing", JBool true);
                       ("currentFile", JStr fid)] in
  ∃ sv',
    srun {| core := boot d; clients := cs |}
         (Upload (Some (orig, Some smp)) now
          :: (Core <$> start fid 0 ++ frame_turns 0 0 n ++ [Tick 0]))
    = Some (sv', [Broadcast files_updated;
                  Respond 200 (JObj [("id", JStr fid); ("name", JStr orig)]);
                  Broadcast started; Respond 200 ok_body;
                  Broadcast status_stopped]) ∧
    socks (core sv') !! 0 = Some {| sent := chunk smp <$> seq 0 n; closes := 1 |} ∧
    concat (chunk smp <$> seq 0 n) = smp ∧
    bytesSent (STATE (core sv')) = 4 * length smp ∧
    playTimer (core sv') = None ∧ zmqSock (core sv') = None ∧
    playing (STATE (core sv')) = true ∧
    ∀ i c, cs !! i = Some c →
           clients sv' !! i = Some (receive [files_updated; started; status_stopped] c).
Proof.
  intros fid n started.
  set (d' := store fid (Readable (Some smp)) (disk (boot d))).
  set (mb := with_disk d' (boot d)).
  set (m0 := {| STATE := {| playing := true; currentFile := Some fid; bytesSent := 0 |};
                zmqSock := Some 0; playTimer := Some 0; disk := d';
                socks := [fresh_socket];
                intervals := [{| samples := smp; index := 0; cleared := false |}];
                plays := [Returned]; sends := [] |}).
  assert (Hstart : run mb (start fid 0)
                   = Some (m0, [Broadcast started; Respond 200 ok_body])).
  { pose proof (filename_truthy now orig) as Hfalsy. fold fid in Hfalsy.
    unfold start. cbn [run step]. unfold play_request. rewrite Hfalsy.
    assert (Hd : found mb fid = Some (Readable (Some smp)))
      by exact (proj2 (store_filename now orig _ _)).
    rewrite Hd. unfold mb. rewrite cleanupStream_boot. reflexivity. }
  assert (H0 : looping 0 0 smp 0 m0).
  { unfold looping, m0. cbn. rewrite Nat.mul_0_r. auto 10. }
  destruct (frame_turns_looping 0 0 smp m0 n H0) as (mN & Hturns & HN & _); [reflexivity|].
  pose proof HN as (Hiv & Hpt & Hpl & Hz & Hs & Hb).
  assert (Hlast : step mN (Tick 0) = Some (cleanupStream false mN, [Broadcast status_stopped])).
  { apply (tick_stops mN 0 _ Hiv eq_refl). right. cbn. apply frame_count_spec. }
  assert (Hrun : run mb (start fid 0 ++ frame_turns 0 0 n ++ [Tick 0])
                 = Some (cleanupStream false mN,
                         [Broadcast started; Respond 200 ok_body; Broadcast status_stopped])).
  { change (length (sends m0)) with 0 in Hturns.
    rewrite (run_app_live _ _ _ _ _ Hstart eq_refl), (run_app_live _ _ _ _ _ Hturns eq_refl).
    cbn [run]. rewrite Hlast. reflexivity. }
  assert (Hcat : concat (chunk smp <$> seq 0 n) = smp).
  { rewrite concat_chunks. apply take_ge, frame_count_spec. }
  eexists. split.
  { cbn [srun sstep upload_audio exits existsb andb]. rewrite srun_core. cbn [core clients].
    fold fid d' mb. rewrite Hrun. reflexivity. }
  cbn [core clients].
  split; [rewrite cleanupStream_socks, Hz, list_lookup_alter_eq, Hs; reflexivity|].
  split; [exact Hcat|].
  split; [rewrite cleanupStream_STATE, Hb, Hcat; reflexivity|].
  split; [apply cleanupStream_playTimer|]. split; [apply cleanupStream_zmqSock|].
  split; [rewrite cleanupStream_playing; exact Hpl|].
  intros i c Hc. rewrite deliver_lookup, broadcast_lookup, Hc. cbn.
  rewrite receive_app. reflexivity.
Qed.
